(** * Lineage-flow interaction state (web/client/src/library/pages/root/Page.tsx)

    A shallow embedding of the [LineageFlowProvider] state transitions:
    the active-edge index ([activeEdges]), the connections cache
    ([connections]) and the derived [selectedEdges] view.

    The provider keeps JavaScript [Map] and [Array] objects in React state
    and its updaters mutate those objects before copying the [Map]; the
    embedding therefore works over an explicit object store with
    references, so that sharing between snapshots is visible. *)

From stdpp Require Import gmap strings list fin_maps.

(** ** Data *)

(** [[string, string]]: an edge, left connector first. *)
Abbreviation Edge := (string * string)%type.

(** [export interface Connections { left: string[]; right: string[] }] *)
Record Connections := mkConnections {
  left : list string;
  right : list string;
}.

(** The object store.  A reference is the index of the object in the list
    of objects of its class; allocation appends, so a reference stays valid
    for ever and a new object never aliases an old one.

    - [arrays]: the [Array<[string, string]>] objects;
    - [edgeMaps]: the [Map<string, Array<[string, string]>>] objects
      ([ActiveEdges]), each binding a key to an array reference;
    - [connMaps]: the [Map<string, Connections>] objects. *)
Record Store := mkStore {
  arrays : list (list Edge);
  edgeMaps : list (gmap string nat);
  connMaps : list (gmap string Connections);
}.

(** ** Store primitives *)

(** Contents of the array object [a]. *)
Definition read (a : nat) (σ : Store) : list Edge :=
  default [] (arrays σ !! a).

(** Bindings of the [ActiveEdges] map object [m]. *)
Definition bindings (m : nat) (σ : Store) : gmap string nat :=
  default ∅ (edgeMaps σ !! m).

(** Bindings of the connections map object [c]. *)
Definition connBindings (c : nat) (σ : Store) : gmap string Connections :=
  default ∅ (connMaps σ !! c).

(** An array literal or the result of [filter]: a new array object. *)
Definition alloc_array (es : list Edge) (σ : Store) : nat * Store :=
  (length (arrays σ),
   mkStore (arrays σ ++ [es]) (edgeMaps σ) (connMaps σ)).

(** [a.push(e)]: in place. *)
Definition push (a : nat) (e : Edge) (σ : Store) : Store :=
  mkStore (<[a := read a σ ++ [e]]> (arrays σ)) (edgeMaps σ) (connMaps σ).

(** [m.set(k, a)]: in place. *)
Definition map_set (m : nat) (k : string) (a : nat) (σ : Store) : Store :=
  mkStore (arrays σ) (<[m := <[k := a]> (bindings m σ)]> (edgeMaps σ))
          (connMaps σ).

(** [m.get(k) ?? []]: the bound array, or a new empty one. *)
Definition get_or_empty (m : nat) (k : string) (σ : Store) : nat * Store :=
  match bindings m σ !! k with
  | Some a => (a, σ)
  | None => alloc_array [] σ
  end.

(** [new Map(m)]: a new map object with the bindings of [m]; the arrays
    are shared, not copied. *)
Definition new_Map (m : nat) (σ : Store) : nat * Store :=
  (length (edgeMaps σ),
   mkStore (arrays σ) (edgeMaps σ ++ [bindings m σ]) (connMaps σ)).

(** [c.delete(k)]: in place. *)
Definition conn_delete (c : nat) (k : string) (σ : Store) : Store :=
  mkStore (arrays σ) (edgeMaps σ)
          (<[c := delete k (connBindings c σ)]> (connMaps σ)).

(** [new Map(c)] on a connections map. *)
Definition new_connMap (c : nat) (σ : Store) : nat * Store :=
  (length (connMaps σ),
   mkStore (arrays σ) (edgeMaps σ) (connMaps σ ++ [connBindings c σ])).

(** ** The updaters of [LineageFlowProvider] *)

(** Modelled from the spec: [isFalse] of [@utils/index] is not part of the
    sources at hand; the index appends a pair "unless an identical pair
    already exists", so on the boolean returned by [some] it is negation. *)
Definition isFalse (b : bool) : bool := negb b.

(** [([left, right]) => left === leftConnect && right === rightConnect] *)
Definition same_pair (leftConnect rightConnect : string) (e : Edge) : bool :=
  bool_decide (e.1 = leftConnect) && bool_decide (e.2 = rightConnect).

(** One iteration of [edges.forEach] in [addActiveEdges], on the map
    object [activeEdges]. *)
Definition addActiveEdges_each (activeEdges : nat) (σ : Store) (edge : Edge)
    : Store :=
  let leftConnect := edge.1 in
  let rightConnect := edge.2 in
  let '(left, σ) := get_or_empty activeEdges leftConnect σ in
  let '(right, σ) := get_or_empty activeEdges rightConnect σ in
  let hasDuplicateLeft :=
    existsb (same_pair leftConnect rightConnect) (read left σ) in
  let hasDuplicateRight :=
    existsb (same_pair leftConnect rightConnect) (read right σ) in
  let σ := if isFalse hasDuplicateLeft
           then push left (leftConnect, rightConnect) σ else σ in
  let σ := if isFalse hasDuplicateRight
           then push right (leftConnect, rightConnect) σ else σ in
  let σ := map_set activeEdges leftConnect left σ in
  map_set activeEdges rightConnect right σ.

(** The function handed to [setActiveEdges] by [addActiveEdges]: it returns
    the reference of the new state. *)
Definition addActiveEdges_updater (edges : list Edge) (activeEdges : nat)
    (σ : Store) : nat * Store :=
  new_Map activeEdges (foldl (addActiveEdges_each activeEdges) σ edges).

(** [e => e[0] !== left && e[1] !== right] *)
Definition remove_filter (left right : string) (e : Edge) : bool :=
  negb (bool_decide (e.1 = left)) && negb (bool_decide (e.2 = right)).

(** One iteration of the first [edges.forEach] in [removeActiveEdges]. *)
Definition removeActiveEdges_each (activeEdges : nat) (σ : Store)
    (edge : Edge) : Store :=
  let left := edge.1 in
  let right := edge.2 in
  let '(l, σ) := get_or_empty activeEdges left σ in
  let '(edgesLeft, σ) :=
    alloc_array (List.filter (remove_filter left right) (read l σ)) σ in
  let '(r, σ) := get_or_empty activeEdges right σ in
  let '(edgesRight, σ) :=
    alloc_array (List.filter (remove_filter left right) (read r σ)) σ in
  let σ := map_set activeEdges left edgesLeft σ in
  map_set activeEdges right edgesRight σ.

Definition removeActiveEdges_updater (edges : list Edge) (activeEdges : nat)
    (σ : Store) : nat * Store :=
  new_Map activeEdges (foldl (removeActiveEdges_each activeEdges) σ edges).

(** One iteration of the second [edges.forEach] in [removeActiveEdges]. *)
Definition removeConnections_each (connections : nat) (σ : Store)
    (edge : Edge) : Store :=
  conn_delete connections edge.2 (conn_delete connections edge.1 σ).

Definition removeConnections_updater (edges : list Edge) (connections : nat)
    (σ : Store) : nat * Store :=
  new_connMap connections (foldl (removeConnections_each connections) σ edges).

(** ** Provider state *)

(** The two [useState] cells the mutators write, with the store their
    objects live in. *)
Record State := mkState {
  store : Store;
  activeEdges : nat;
  connections : nat;
}.

(** [useState<ActiveEdges>(new Map())] and
    [useState<Map<string, Connections>>(new Map())]. *)
Definition initial : State :=
  mkState (mkStore [] [∅] [∅]) 0 0.

Definition addActiveEdges (edges : list Edge) (s : State) : State :=
  let '(m, σ) := addActiveEdges_updater edges (activeEdges s) (store s) in
  mkState σ m (connections s).

Definition removeActiveEdges (edges : list Edge) (s : State) : State :=
  let '(m, σ) := removeActiveEdges_updater edges (activeEdges s) (store s) in
  let '(c, σ) := removeConnections_updater edges (connections s) σ in
  mkState σ m c.

(** [setConnections(new Map(entries))] by a consumer of the context: the
    new state is a new map object with the given bindings. *)
Definition setConnections (C : gmap string Connections) (s : State) : State :=
  mkState (mkStore (arrays (store s)) (edgeMaps (store s))
                   (connMaps (store s) ++ [C]))
          (activeEdges s) (length (connMaps (store s))).

(** ** Reading the index *)

(** What a reader sees through the map object [m]: each key with the
    current contents of its array. *)
Definition view (m : nat) (σ : Store) : gmap string (list Edge) :=
  (λ a, read a σ) <$> bindings m σ.

(** The index as the current state shows it. *)
Definition index (s : State) : gmap string (list Edge) :=
  view (activeEdges s) (store s).

(** The connections cache as the current state shows it. *)
Definition cache (s : State) : gmap string Connections :=
  connBindings (connections s) (store s).

(** ** Well-formed stores *)

(** Every array reference bound in a map object denotes an array, and an
    array object is bound under one key only, whichever map object binds
    it.  Snapshots made by [new Map] share their arrays key by key, so the
    second clause is about all the map objects at once. *)
Definition store_ok (σ : Store) : Prop :=
  (∀ m k a, bindings m σ !! k = Some a → a < length (arrays σ)) ∧
  (∀ m1 m2 k1 k2 a,
     bindings m1 σ !! k1 = Some a → bindings m2 σ !! k2 = Some a → k1 = k2).

(** The state cells refer to objects of a well-formed store. *)
Definition wf_state (s : State) : Prop :=
  store_ok (store s) ∧
  activeEdges s < length (edgeMaps (store s)) ∧
  connections s < length (connMaps (store s)).

(** ** The index as a value *)

(** The effect of one [addActiveEdges] iteration on the index read through
    the updated map object.  When both connectors are the same bound key,
    [left] and [right] are one array and both pushes land on it; when that
    key is unbound, they are two new arrays and the second [set] wins. *)
Definition add_pair (idx : gmap string (list Edge)) (e : Edge)
    : gmap string (list Edge) :=
  let left := default [] (idx !! e.1) in
  let right := default [] (idx !! e.2) in
  let dupLeft := existsb (same_pair e.1 e.2) left in
  let dupRight := existsb (same_pair e.1 e.2) right in
  if decide (e.1 = e.2) then
    <[e.1 := if dupLeft then left
             else match idx !! e.1 with
                  | Some _ => left ++ [e; e]
                  | None => [e]
                  end]> idx
  else
    <[e.2 := if dupRight then right else right ++ [e]]>
      (<[e.1 := if dupLeft then left else left ++ [e]]> idx).

(** The effect of one [removeActiveEdges] iteration on the index. *)
Definition remove_pair (idx : gmap string (list Edge)) (e : Edge)
    : gmap string (list Edge) :=
  <[e.2 := List.filter (remove_filter e.1 e.2) (default [] (idx !! e.2))]>
    (<[e.1 := List.filter (remove_filter e.1 e.2) (default [] (idx !! e.1))]>
       idx).

(** [k] is one of the two connectors of [e]. *)
Definition endpoint (k : string) (e : Edge) : bool :=
  bool_decide (k = e.1) || bool_decide (k = e.2).

(** Both lists the pair belongs to hold it. *)
Definition present (idx : gmap string (list Edge)) (e : Edge) : Prop :=
  e ∈ default [] (idx !! e.1) ∧ e ∈ default [] (idx !! e.2).

(** Every list of [idx] is still there in [idx'], possibly longer. *)
Definition extends (idx idx' : gmap string (list Edge)) : Prop :=
  ∀ k l, idx !! k = Some l → ∃ l', idx' !! k = Some (l ++ l').

(** Every stored pair is one of [A] and is stored under one of its own
    connectors. *)
Definition tracked (A : list Edge) (idx : gmap string (list Edge)) : Prop :=
  ∀ k l e, idx !! k = Some l → e ∈ l → e ∈ A ∧ endpoint k e = true.

(** Every list of the index is without repetition. *)
Definition lists_NoDup (idx : gmap string (list Edge)) : Prop := ∀ k l, idx !! k = Some l → NoDup l.

(** The filter that the whole batch [es] applies to the list under key
    [k]: each pair of the batch with [k] as a connector filters it once. *)
Definition batch_filter (k : string) (es : list Edge) (e : Edge) : bool :=
  forallb (λ p, implb (endpoint k p) (remove_filter p.1 p.2 e)) es.

(** ** Queries *)

(** The pair asked for against a stored pair, in either orientation.  The
    provider types both connectors of the asked pair as [Maybe<string>]. *)
Definition pair_matches (edge : option string * option string) (e : Edge)
    : bool :=
  bool_decide (edge = (Some e.1, Some e.2)) ||
  bool_decide (edge = (Some e.2, Some e.1)).

(** The list under a connector, if there is a connector and a list. *)
Definition edges_under (idx : gmap string (list Edge)) (c : option string)
    : list Edge :=
  match c with
  | Some k => default [] (idx !! k)
  | None => []
  end.

(** Modelled from the spec: [hasActiveEdge] of [./help] is not part of the
    sources at hand.  "Returns true if the exact pair (in either stored
    orientation) exists under either endpoint's list." *)
Definition hasActiveEdge (idx : gmap string (list Edge))
    (edge : option string * option string) : bool :=
  existsb (pair_matches edge) (edges_under idx edge.1) ||
  existsb (pair_matches edge) (edges_under idx edge.2).

(** Modelled from the spec: [hasActiveEdgeConnector] of [./help] is not
    part of the sources at hand.  "Returns true if the connector has at
    least one incident edge", the incident edges of a connector being the
    list the index keeps under it. *)
Definition hasActiveEdgeConnector (idx : gmap string (list Edge))
    (connector : string) : bool :=
  match idx !! connector with
  | Some (_ :: _) => true
  | _ => false
  end.

(** [checkActiveEdge], exported as [hasActiveEdge]: the query on the
    current state. *)
Definition checkActiveEdge (s : State) (edge : option string * option string)
    : bool :=
  hasActiveEdge (index s) edge.

(** Modelled from the spec: [EnumSide] of [~/types/enum] is not part of
    the sources at hand; a connector has a "side ∈ {left, right}". *)
Inductive EnumSide := Left | Right.

(** [isActiveColumn].  [toID] of [@utils/index] is not part of the sources
    at hand and is taken as a parameter. *)
Definition isActiveColumn (toID : EnumSide → string → string → string)
    (s : State) (modelName columnName : string) : bool :=
  let leftConnector := toID Left modelName columnName in
  let rightConnector := toID Right modelName columnName in
  hasActiveEdgeConnector (index s) leftConnector ||
  hasActiveEdgeConnector (index s) rightConnector.

(** A connector-ID scheme to run the examples with: the side and the two
    names joined by a separator. *)
Definition joinID (side : EnumSide) (modelName columnName : string) : string :=
  String.append (match side with Left => "left" | Right => "right" end)
    (String.append "__"
       (String.append modelName (String.append "__" columnName))).

(** ** Histories *)

(** A call of one of the two mutators. *)
Inductive Op :=
  | Add (edges : list Edge)
  | Remove (edges : list Edge).

Definition apply_op (s : State) (o : Op) : State :=
  match o with
  | Add edges => addActiveEdges edges s
  | Remove edges => removeActiveEdges edges s
  end.

(** The state after the calls [ops], in order, on the state [s]. *)
Definition run (ops : list Op) (s : State) : State := foldl apply_op s ops.

(** Every pair some [addActiveEdges] call of the history was given. *)
Definition added (ops : list Op) : list Edge :=
  flat_map (λ o, match o with Add edges => edges | Remove _ => [] end) ops.

(** ** The selected-edges view *)

(** The values the derivation handles: [undefined], a [ConnectedNode]
    (its type is not part of the sources at hand and is the parameter
    [A]), arrays of such values, and the values a plain object inherits
    from [Object.prototype], each named by its property. *)
#[local] Set Warnings "-register-all".
Inductive JsValue (A : Type) :=
  | JsUndefined
  | JsNode (n : A)
  | JsArray (xs : list (JsValue A))
  | JsInherited (name : string).
Arguments JsUndefined {A}.
Arguments JsNode {A} n.
Arguments JsArray {A} xs.
Arguments JsInherited {A} name.

(** [Array.prototype.flat()] with its default depth 1: an element that is
    an array is replaced by its elements, any other element, [undefined]
    included, is kept. *)
Definition flat {A} (xs : list (JsValue A)) : list (JsValue A) :=
  flat_map (λ v, match v with JsArray ys => ys | _ => [v] end) xs.

(** The property names of [Object.prototype]: what a plain object, such
    as the [{}] the provider starts [nodesConnections] with, inherits. *)
Definition Object_prototype : list string :=
  ["constructor"; "__defineGetter__"; "__defineSetter__"; "hasOwnProperty";
   "__lookupGetter__"; "__lookupSetter__"; "isPrototypeOf";
   "propertyIsEnumerable"; "toString"; "valueOf"; "__proto__";
   "toLocaleString"]%string.

(** What a lookup of [id] finds past the own properties of a plain object:
    the inherited value when [Object.prototype] has the property, else
    [undefined]. *)
Definition inherited_prop {A} (id : string) : JsValue A :=
  if bool_decide (id ∈ Object_prototype) then JsInherited id
  else JsUndefined.

(** [nodesConnections[id]] on a plain object: the own property if there
    is one, else what the prototype chain gives. *)
Definition prop {A} (o : gmap string (JsValue A)) (id : string) : JsValue A :=
  default (inherited_prop id) (o !! id).

(** [Array.from(selectedNodes).map(id => nodesConnections[id]!).flat()].
    The selection is a [Set<string>], given as the list of its elements in
    insertion order. *)
Definition selectedEdges {A} (selectedNodes : list string)
    (nodesConnections : gmap string (JsValue A)) : list (JsValue A) :=
  flat (map (λ id, prop nodesConnections id) selectedNodes).

(** [connectedNodes]: [new Set(Object.keys(nodesConnections))], the set of
    the keys of [nodesConnections]. *)
Definition connectedNodes {A} (nodesConnections : gmap string (JsValue A))
    : gset string :=
  dom nodesConnections.

(** ** The page frame ([Page], [EnvironmentDetails]) *)

(** [Array.from(new Set(xs))]: a [Set] keeps its elements in insertion
    order and ignores the insertion of an element it has, so the array
    holds the elements of [xs] in order of first occurrence. *)
Definition Array_from_Set {A} `{EqDecision A} (xs : list A) : list A :=
  foldl (λ acc x, if decide (x ∈ acc) then acc else acc ++ [x]) [] xs.

(** [modelsCount]: [Array.from(new Set(models.values())).length].  The
    [Map] of models is given by its entries in insertion order, a model
    object by its reference (a [Set] compares objects by identity). *)
Definition modelsCount (models : list (string * nat)) : nat :=
  length (Array_from_Set (models.*2)).

(** The condition under which [Page] renders the Plan link:
    [modules.includes('plans') || modules.includes('plan-active')]. *)
Definition showsPlanLink (modules : list string) : bool :=
  bool_decide ("plans"%string ∈ modules) ||
  bool_decide ("plan-active"%string ∈ modules).

(** [withPlanModule] of [EnvironmentDetails]:
    [modules.includes('plans') || modules.includes('plan')]. *)
Definition withPlanModule (modules : list string) : bool :=
  bool_decide ("plans"%string ∈ modules) ||
  bool_decide ("plan"%string ∈ modules).

(** ** The errors page ([PageErrors]) *)

Section PageErrors.
(** The [ErrorIDE] type and [removeError] come from [../ide/context],
    which is not part of the sources at hand: an error is a value of a
    type [E] with the two properties the page reads, [id] (possibly nil)
    and [status]; [removeError] acts on a state of some type [T]. *)
Context {E T : Type}.
Context (id_of : E → option string).

(** [list]: [Array.from(errors).reverse()], the [Set] of errors being
    given by its elements in insertion order. *)
Definition errorList (errors : list E) : list E := reverse errors.

(** The route the effect navigates to: [EnumRoutes.Errors] when
    [list[0]?.id] is nil, else [EnumRoutes.Errors + '/' + id]. *)
Definition errorsRedirect (routeErrors : string) (items : list E) : string :=
  match head items ≫= id_of with
  | None => routeErrors
  | Some id => routeErrors +:+ "/" +:+ id
  end.

(** [handleDelete(id)]: [removeError] is called with the first error of
    [list] whose [id] is [id], if there is one. *)
Definition handleDelete (removeError : E → T → T) (items : list E)
    (id : string) (st : T) : T :=
  match List.find (λ error, bool_decide (id_of error = Some id)) items with
  | Some error => removeError error st
  | None => st
  end.

(** The values the [id] of an error can have where [types] reads it.
    [id_of] above is the same property as [errorsRedirect] and
    [handleDelete] see it, where [undefined] and [null] are both nil;
    as a property key they differ. *)
Inductive JsId :=
  | IdUndefined
  | IdNull
  | IdString (s : string).

(** The property key a computed key [[it.id]] makes of an id. *)
Definition property_key (i : JsId) : string :=
  match i with
  | IdUndefined => "undefined"%string
  | IdNull => "null"%string
  | IdString s => s
  end.

(** [Object.assign(acc, {[key]: value})] on a plain object [acc], given
    by its own properties, for a [value] that is a string (the
    accumulator is declared [Record<string, string>]): the property is
    set, except that setting ["__proto__"] runs the setter inherited from
    [Object.prototype], which ignores a value that is no object, and
    leaves [acc] without such an own property. *)
Definition Object_assign1 (acc : gmap string string) (key value : string)
    : gmap string string :=
  if bool_decide (key = "__proto__"%string) then acc
  else <[key := value]> acc.

(** [types]: [list.reduce((acc, it) => Object.assign(acc, {[it.id]:
    it.status}), {})], as the own properties of the object built. *)
Definition types (id_js : E → JsId) (status : E → string) (items : list E)
    : gmap string string :=
  foldl (λ acc it, Object_assign1 acc (property_key (id_js it)) (status it))
        ∅ items.

End PageErrors.

(** ** Store lemmas *)

Section store_facts.
Implicit Types (σ : Store) (m a : nat) (k : string) (e : Edge).

Lemma read_alloc_old es σ a :
  a < length (arrays σ) → read a (alloc_array es σ).2 = read a σ.
Proof. intros Ha. unfold read. simpl. by rewrite lookup_app_l. Qed.

Lemma read_alloc_new es σ :
  read (alloc_array es σ).1 (alloc_array es σ).2 = es.
Proof.
  unfold read. simpl.
  by rewrite lookup_app_r, Nat.sub_diag by lia.
Qed.

Lemma read_push_eq a e σ :
  a < length (arrays σ) → read a (push a e σ) = read a σ ++ [e].
Proof.
  intros Ha. unfold read at 1. simpl. by rewrite list_lookup_insert_eq.
Qed.

Lemma read_push_ne a a' e σ : a ≠ a' → read a' (push a e σ) = read a' σ.
Proof.
  intros Hne. unfold read at 1. simpl. by rewrite list_lookup_insert_ne.
Qed.

Lemma length_push a e σ : length (arrays (push a e σ)) = length (arrays σ).
Proof. simpl. apply length_insert. Qed.

Lemma bindings_map_set_eq m k a σ :
  m < length (edgeMaps σ) →
  bindings m (map_set m k a σ) = <[k := a]> (bindings m σ).
Proof.
  intros Hm. unfold bindings at 1. simpl. by rewrite list_lookup_insert_eq.
Qed.

Lemma bindings_map_set_ne m m' k a σ :
  m ≠ m' → bindings m' (map_set m k a σ) = bindings m' σ.
Proof.
  intros Hne. unfold bindings at 1. simpl.
  by rewrite list_lookup_insert_ne.
Qed.

Lemma bindings_invalid m σ : length (edgeMaps σ) ≤ m → bindings m σ = ∅.
Proof. intros Hm. unfold bindings. by rewrite lookup_ge_None_2. Qed.

(** A binding found in a map object means the object exists. *)
Lemma bindings_Some_valid m k a σ :
  bindings m σ !! k = Some a → m < length (edgeMaps σ).
Proof.
  intros Hb. destruct (decide (m < length (edgeMaps σ))) as [|Hn]; [done|].
  rewrite bindings_invalid in Hb by lia. by rewrite lookup_empty in Hb.
Qed.

Lemma length_edgeMaps_map_set m k a σ :
  length (edgeMaps (map_set m k a σ)) = length (edgeMaps σ).
Proof. simpl. apply length_insert. Qed.

(** [set] with the binding the key already has changes nothing. *)
Lemma map_set_id m k a σ :
  bindings m σ !! k = Some a → map_set m k a σ = σ.
Proof.
  intros Hb. pose proof (bindings_Some_valid _ _ _ _ Hb) as Hm.
  unfold map_set. rewrite (insert_id _ _ _ Hb).
  destruct (lookup_lt_is_Some_2 _ _ Hm) as [M HM].
  unfold bindings. rewrite HM. simpl.
  rewrite list_insert_id by done. by destruct σ.
Qed.

Lemma bindings_new_Map_old m m' σ :
  m' < length (edgeMaps σ) → bindings m' (new_Map m σ).2 = bindings m' σ.
Proof. intros Hm. unfold bindings. simpl. by rewrite lookup_app_l. Qed.

Lemma bindings_new_Map_new m σ :
  bindings (new_Map m σ).1 (new_Map m σ).2 = bindings m σ.
Proof.
  unfold bindings at 1. simpl.
  by rewrite lookup_app_r, Nat.sub_diag by lia.
Qed.

Lemma bindings_new_Map m m' σ :
  bindings m' (new_Map m σ).2 =
  if decide (m' = length (edgeMaps σ)) then bindings m σ else bindings m' σ.
Proof.
  case_decide as Hm.
  - subst m'. apply bindings_new_Map_new.
  - destruct (decide (m' < length (edgeMaps σ))).
    + by apply bindings_new_Map_old.
    + rewrite !bindings_invalid; [done|lia|simpl; rewrite length_app; simpl; lia].
Qed.

(** ** Preservation of [store_ok] by the primitives *)

Lemma store_ok_alloc es σ : store_ok σ → store_ok (alloc_array es σ).2.
Proof.
  intros [Hv Ho]. split.
  - intros m k a Hb. simpl. rewrite length_app. simpl.
    specialize (Hv m k a Hb). lia.
  - exact Ho.
Qed.

Lemma store_ok_push a e σ : store_ok σ → store_ok (push a e σ).
Proof.
  intros [Hv Ho]. split.
  - intros m k a' Hb. rewrite length_push. exact (Hv m k a' Hb).
  - exact Ho.
Qed.

(** [set] keeps the store well-formed when the array is new to every map
    object or already belongs to the key. *)
Lemma store_ok_map_set m k a σ :
  store_ok σ → a < length (arrays σ) →
  (∀ m' k', bindings m' σ !! k' = Some a → k' = k) →
  store_ok (map_set m k a σ).
Proof.
  intros [Hv Ho] Ha Hown.
  assert (Hlook : ∀ m' k' a', bindings m' (map_set m k a σ) !! k' = Some a' →
            (k' = k ∧ a' = a) ∨ bindings m' σ !! k' = Some a').
  { intros m' k' a' Hb. destruct (decide (m = m')) as [<-|Hne].
    - pose proof (bindings_Some_valid _ _ _ _ Hb) as Hm.
      rewrite length_edgeMaps_map_set in Hm.
      rewrite bindings_map_set_eq in Hb by done.
      rewrite lookup_insert in Hb. case_decide; simplify_eq; auto.
    - rewrite bindings_map_set_ne in Hb by done. auto. }
  split.
  - intros m' k' a' Hb. simpl.
    destruct (Hlook _ _ _ Hb) as [[-> ->]|Hb']; [done|by eapply Hv].
  - intros m1 m2 k1 k2 a' H1 H2.
    destruct (Hlook _ _ _ H1) as [[-> ->]|H1'],
             (Hlook _ _ _ H2) as [[-> Heq]|H2']; subst; eauto.
    symmetry. eauto.
Qed.

Lemma store_ok_new_Map m σ : store_ok σ → store_ok (new_Map m σ).2.
Proof.
  intros [Hv Ho]. split.
  - intros m' k a. rewrite bindings_new_Map. case_decide; apply Hv.
  - intros m1 m2 k1 k2 a. rewrite !bindings_new_Map.
    repeat case_decide; apply Ho.
Qed.

End store_facts.

(** ** Views under the primitives *)

Section view_facts.
Implicit Types (σ : Store) (m a : nat) (k : string) (e : Edge).

Lemma view_lookup m σ k :
  view m σ !! k = (λ a, read a σ) <$> (bindings m σ !! k).
Proof. unfold view. apply lookup_fmap. Qed.

(** Two stores with the same bindings for [m] and the same contents for
    the arrays bound there show the same view. *)
Lemma view_lookup_ext m σ σ' k :
  bindings m σ' !! k = bindings m σ !! k →
  (∀ a, bindings m σ !! k = Some a → read a σ' = read a σ) →
  view m σ' !! k = view m σ !! k.
Proof.
  intros Hb Hr. rewrite !view_lookup, Hb.
  destruct (bindings m σ !! k) as [a|] eqn:E; simpl; [|done].
  by rewrite Hr.
Qed.

Lemma view_map_set_eq m k a σ :
  m < length (edgeMaps σ) →
  view m (map_set m k a σ) = <[k := read a σ]> (view m σ).
Proof.
  intros Hm. unfold view. rewrite bindings_map_set_eq by done.
  by rewrite fmap_insert.
Qed.

Lemma view_map_set_ne m m' k a σ :
  m ≠ m' → view m' (map_set m k a σ) = view m' σ.
Proof.
  intros Hne. unfold view. by rewrite bindings_map_set_ne.
Qed.

Lemma view_new_Map_new m σ :
  view (new_Map m σ).1 (new_Map m σ).2 = view m σ.
Proof. unfold view. by rewrite bindings_new_Map_new. Qed.

Lemma view_new_Map_old m m' σ :
  m' < length (edgeMaps σ) → view m' (new_Map m σ).2 = view m' σ.
Proof. intros Hm. unfold view. by rewrite bindings_new_Map_old. Qed.

(** What [m.get(k) ?? []] returns: an array whose contents are the list
    the view shows under [k] (empty when unbound), either the one bound
    to [k] or a new one just past the old arrays. *)
Lemma get_or_empty_spec m k σ :
  store_ok σ →
  let a := (get_or_empty m k σ).1 in
  let σ1 := (get_or_empty m k σ).2 in
  store_ok σ1 ∧ edgeMaps σ1 = edgeMaps σ ∧ connMaps σ1 = connMaps σ ∧
  length (arrays σ) ≤ length (arrays σ1) ∧
  (∀ a', a' < length (arrays σ) → read a' σ1 = read a' σ) ∧
  a < length (arrays σ1) ∧
  read a σ1 = default [] (view m σ !! k) ∧
  (bindings m σ !! k = Some a ∨
   (bindings m σ !! k = None ∧ a = length (arrays σ) ∧
    length (arrays σ1) = S a)).
Proof.
  intros Hok. unfold get_or_empty. rewrite view_lookup.
  destruct (bindings m σ !! k) as [a|] eqn:E.
  - simpl. destruct Hok as [Hv Ho]. pose proof (Hv _ _ _ E).
    repeat split; auto.
  - pose proof (read_alloc_new [] σ) as Hnew.
    pose proof (store_ok_alloc [] σ Hok) as Hok'.
    simpl in *. rewrite length_app. simpl.
    repeat split; try done; try lia; try apply Hok'.
    + intros a' Ha'. by apply (read_alloc_old [] σ).
    + right. repeat split; lia.
Qed.

(** Bindings only depend on the map objects. *)
Lemma bindings_edgeMaps_eq m σ σ' :
  edgeMaps σ' = edgeMaps σ → bindings m σ' = bindings m σ.
Proof. unfold bindings. by intros ->. Qed.

Lemma read_push_if (b : bool) a a' e σ :
  a < length (arrays σ) →
  read a' (if b then push a e σ else σ) =
  if b && bool_decide (a = a') then read a' σ ++ [e] else read a' σ.
Proof.
  intros Ha. destruct b; simpl; [|done].
  case_bool_decide as Heq.
  - subst. by apply read_push_eq.
  - by apply read_push_ne.
Qed.

End view_facts.

(** ** One iteration of [addActiveEdges] on views *)

Section add_step.
Implicit Types (σ : Store) (m a : nat) (k : string) (e : Edge).

Lemma add_pair_lookup_ne idx e k :
  endpoint k e = false → add_pair idx e !! k = idx !! k.
Proof.
  unfold endpoint, add_pair. intros H.
  apply orb_false_iff in H as [H1 H2].
  apply bool_decide_eq_false in H1, H2.
  case_decide; rewrite ?lookup_insert_ne by done; done.
Qed.

Lemma addActiveEdges_each_spec m σ e :
  store_ok σ → m < length (edgeMaps σ) →
  let σ' := addActiveEdges_each m σ e in
  store_ok σ' ∧
  length (edgeMaps σ') = length (edgeMaps σ) ∧
  connMaps σ' = connMaps σ ∧
  view m σ' = add_pair (view m σ) e ∧
  (∀ m0 k, endpoint k e = false → view m0 σ' !! k = view m0 σ !! k).
Proof.
  intros Hok Hm. destruct e as [l r].
  unfold addActiveEdges_each. cbn [fst snd].
  pose proof (get_or_empty_spec m l σ Hok) as H1.
  destruct (get_or_empty m l σ) as [left σ1]. cbn [fst snd] in H1.
  destruct H1 as (Hok1 & HE1 & HC1 & Hlen1 & Hrd1 & Hleft1 & Hrleft1 & Hcase1).
  pose proof (get_or_empty_spec m r σ1 Hok1) as H2.
  destruct (get_or_empty m r σ1) as [right σ2]. cbn [fst snd] in H2.
  destruct H2 as (Hok2 & HE2 & HC2 & Hlen2 & Hrd2 & Hright & Hrright & Hcase2).
  assert (Hb1 : ∀ m0, bindings m0 σ1 = bindings m0 σ)
    by (intros; by apply bindings_edgeMaps_eq).
  assert (Hb2 : ∀ m0, bindings m0 σ2 = bindings m0 σ)
    by (intros; rewrite <- Hb1; by apply bindings_edgeMaps_eq).
  destruct Hok as [Hv Ho].
  assert (Hleft : left < length (arrays σ2)) by lia.
  assert (Hview1 : view m σ1 = view m σ).
  { apply map_eq. intros k. apply view_lookup_ext; [by rewrite Hb1|].
    intros a Ha. apply Hrd1. eauto. }
  rewrite Hview1, Hb1 in *.
  assert (Hrleft : read left σ2 = default [] (view m σ !! l)).
  { rewrite Hrd2 by done. done. }
  assert (Hownl : ∀ m0 k, bindings m0 σ !! k = Some left → k = l).
  { intros m0 k Hb. destruct Hcase1 as [Hc|(_ & -> & _)]; [eauto|].
    apply Hv in Hb. lia. }
  assert (Hownr : ∀ m0 k, bindings m0 σ !! k = Some right → k = r).
  { intros m0 k Hb. destruct Hcase2 as [Hc|(_ & -> & _)]; [eauto|].
    apply Hv in Hb. lia. }
  assert (Halias : left = right ↔ l = r ∧ is_Some (bindings m σ !! l)).
  { destruct Hcase1 as [Hc1|(Hn1 & -> & HS1)], Hcase2 as [Hc2|(Hn2 & -> & HS2)].
    - split; [intros ->; split; eauto|intros [-> _]; congruence].
    - split; [intros ->; lia|intros [-> [? ?]]; congruence].
    - split; [intros Heq|intros [-> [? ?]]; congruence].
      apply Hv in Hc2. lia.
    - split; [lia|intros [-> [? ?]]; congruence]. }
  set (dupL := existsb (same_pair l r) (read left σ2)).
  set (dupR := existsb (same_pair l r) (read right σ2)).
  set (σ3 := if isFalse dupL then push left (l, r) σ2 else σ2).
  set (σ4 := if isFalse dupR then push right (l, r) σ3 else σ3).
  assert (Hok3 : store_ok σ3).
  { subst σ3. destruct (isFalse dupL); [by apply store_ok_push|done]. }
  assert (Hok4 : store_ok σ4).
  { subst σ4. destruct (isFalse dupR); [by apply store_ok_push|done]. }
  assert (HE3 : edgeMaps σ3 = edgeMaps σ).
  { subst σ3. destruct (isFalse dupL); simpl; congruence. }
  assert (HE4 : edgeMaps σ4 = edgeMaps σ).
  { subst σ4. destruct (isFalse dupR); simpl; congruence. }
  assert (HC4 : connMaps σ4 = connMaps σ).
  { subst σ4 σ3. destruct (isFalse dupR), (isFalse dupL); simpl; congruence. }
  assert (HL3 : length (arrays σ3) = length (arrays σ2)).
  { subst σ3. destruct (isFalse dupL); [apply length_push|done]. }
  assert (HL4 : length (arrays σ4) = length (arrays σ2)).
  { subst σ4. destruct (isFalse dupR); [rewrite length_push|]; done. }
  assert (Hb4 : ∀ m0, bindings m0 σ4 = bindings m0 σ)
    by (intros; by apply bindings_edgeMaps_eq).
  assert (Hread4 : ∀ a, read a σ4 =
            (if isFalse dupR && bool_decide (right = a)
             then (λ x, x ++ [(l, r)]) else id)
            ((if isFalse dupL && bool_decide (left = a)
              then (λ x, x ++ [(l, r)]) else id) (read a σ2))).
  { intros a. subst σ4 σ3. rewrite read_push_if by lia.
    rewrite read_push_if by lia.
    destruct (isFalse dupR && _), (isFalse dupL && _); done. }
  assert (Hm4 : m < length (edgeMaps σ4)) by (by rewrite HE4).
  set (σ5 := map_set m l left σ4).
  assert (Hb5 : ∀ m0 k a, bindings m0 σ5 !! k = Some a →
            (k = l ∧ a = left) ∨ bindings m0 σ !! k = Some a).
  { intros m0 k a Hb. subst σ5. destruct (decide (m = m0)) as [<-|Hne].
    - rewrite bindings_map_set_eq, lookup_insert in Hb by done.
      case_decide; simplify_eq; [auto|]. rewrite Hb4 in Hb. auto.
    - rewrite bindings_map_set_ne, Hb4 in Hb by done. auto. }
  assert (Hok5 : store_ok σ5).
  { apply store_ok_map_set; [done|lia|]. intros m' k'. rewrite Hb4. eauto. }
  assert (Hok6 : store_ok (map_set m r right σ5)).
  { apply store_ok_map_set; [done|simpl; lia|].
    intros m' k' Hb. apply Hb5 in Hb as [[-> Heq]|Hb]; [|eauto].
    symmetry in Heq. by apply Halias in Heq as [? _]. }
  split; [exact Hok6|].
  split; [subst σ5; rewrite !length_edgeMaps_map_set; congruence|].
  split; [simpl; exact HC4|].
  assert (Hframe : ∀ m0 k, k ≠ l → k ≠ r →
            view m0 (map_set m r right σ5) !! k = view m0 σ !! k).
  { intros m0 k Hkl Hkr.
    assert (Hbk : bindings m0 (map_set m r right σ5) !! k = bindings m0 σ !! k).
    { destruct (decide (m = m0)) as [<-|Hne].
      - subst σ5.
        rewrite bindings_map_set_eq by (by rewrite length_edgeMaps_map_set).
        rewrite lookup_insert_ne by done.
        rewrite bindings_map_set_eq by done.
        rewrite lookup_insert_ne by done. by rewrite Hb4.
      - subst σ5. rewrite !bindings_map_set_ne by done. by rewrite Hb4. }
    apply view_lookup_ext; [done|].
    intros a Ha. change (read a σ4 = read a σ). rewrite Hread4.
    assert (a < length (arrays σ)) by eauto.
    assert (right ≠ a) by (intros ->; apply Hownr in Ha; done).
    assert (left ≠ a) by (intros ->; apply Hownl in Ha; done).
    rewrite !bool_decide_eq_false_2, !andb_false_r by done. simpl.
    rewrite Hrd2, Hrd1 by lia. done. }
  split.
  2:{ intros m0 k Hk. unfold endpoint in Hk. simpl in Hk.
      apply orb_false_iff in Hk as [Hk1 Hk2].
      apply bool_decide_eq_false in Hk1, Hk2. by apply Hframe. }
  apply map_eq. intros k.
  destruct (decide (k = l ∨ k = r)) as [Hk|Hk].
  2:{ rewrite Hframe by tauto. rewrite add_pair_lookup_ne; [done|].
      unfold endpoint. simpl. rewrite !bool_decide_eq_false_2; tauto. }
  subst σ5.
  rewrite view_map_set_eq by (by rewrite length_edgeMaps_map_set).
  rewrite view_map_set_eq by done.
  change (read right (map_set m l left σ4)) with (read right σ4).
  unfold add_pair. cbn [fst snd].
  rewrite !Hread4. fold dupL dupR.
  rewrite Hrleft, Hrright.
  subst dupL dupR. rewrite Hrleft, Hrright.
  set (L := default [] (view m σ !! l)).
  set (R := default [] (view m σ !! r)).
  rewrite (bool_decide_eq_true_2 (left = left)) by done.
  rewrite (bool_decide_eq_true_2 (right = right)) by done.
  rewrite !andb_true_r.
  case_decide as Hlr.
  - subst r. assert (k = l) as -> by (destruct Hk; done).
    rewrite !lookup_insert_eq. f_equal.
    subst R. fold L. unfold isFalse.
    destruct (existsb (same_pair l l) L) eqn:Hd; simpl.
    + done.
    + rewrite view_lookup.
      destruct (bindings m σ !! l) as [a|] eqn:Hbl; simpl.
      * assert (left = right) as Heq by (apply Halias; eauto).
        rewrite (bool_decide_eq_true_2 _ Heq). simpl.
        by rewrite <- app_assoc.
      * assert (left ≠ right) as Hne.
        { intros Heq. apply Halias in Heq as [_ [? ?]]. congruence. }
        rewrite (bool_decide_eq_false_2 _ Hne). simpl.
        subst L. by rewrite view_lookup, Hbl.
  - assert (left ≠ right) as Hne by (intros Heq; apply Halias in Heq; tauto).
    assert (right ≠ left) as Hne' by congruence.
    rewrite (bool_decide_eq_false_2 _ Hne), (bool_decide_eq_false_2 _ Hne').
    rewrite !andb_false_r. simpl.
    rewrite !lookup_insert. unfold isFalse.
    repeat case_decide; subst; try congruence;
      try (destruct Hk; congruence);
      repeat match goal with
             | |- context [existsb ?f ?x] => destruct (existsb f x)
             end; done.
Qed.

End add_step.

(** ** One iteration of [removeActiveEdges] on views *)

Section remove_step.
Implicit Types (σ : Store) (m a : nat) (k : string) (e : Edge).

(** Allocation leaves every view as it was. *)
Lemma view_alloc m es σ :
  store_ok σ → view m (alloc_array es σ).2 = view m σ.
Proof.
  intros [Hv _]. apply map_eq. intros k.
  apply view_lookup_ext; [done|].
  intros a Ha. apply read_alloc_old. eauto.
Qed.

Lemma view_get_or_empty m m' k σ :
  store_ok σ → view m' (get_or_empty m k σ).2 = view m' σ.
Proof.
  intros Hok. unfold get_or_empty.
  destruct (bindings m σ !! k); [done|]. by apply view_alloc.
Qed.

Lemma remove_pair_lookup_ne idx e k :
  endpoint k e = false → remove_pair idx e !! k = idx !! k.
Proof.
  unfold endpoint, remove_pair. intros H.
  apply orb_false_iff in H as [H1 H2].
  apply bool_decide_eq_false in H1, H2.
  by rewrite !lookup_insert_ne by done.
Qed.

Lemma removeActiveEdges_each_spec m σ e :
  store_ok σ → m < length (edgeMaps σ) →
  let σ' := removeActiveEdges_each m σ e in
  store_ok σ' ∧
  length (edgeMaps σ') = length (edgeMaps σ) ∧
  connMaps σ' = connMaps σ ∧
  view m σ' = remove_pair (view m σ) e ∧
  (∀ m0, m0 ≠ m → view m0 σ' = view m0 σ) ∧
  length (arrays σ) ≤ length (arrays σ') ∧
  (∀ a, a < length (arrays σ) → read a σ' = read a σ).
Proof.
  intros Hok Hm. destruct e as [l r].
  unfold removeActiveEdges_each. cbn [fst snd].
  pose proof (get_or_empty_spec m l σ Hok) as H1.
  pose proof (view_get_or_empty m) as Hg1.
  specialize (λ m', Hg1 m' l σ Hok).
  destruct (get_or_empty m l σ) as [al σ1]. cbn [fst snd] in H1, Hg1.
  destruct H1 as (Hok1 & HE1 & HC1 & Hlen1 & Hrd1 & Hal & Hral & _).
  set (fl := List.filter (remove_filter l r) (read al σ1)).
  pose proof (store_ok_alloc fl σ1 Hok1) as Hok2.
  pose proof (read_alloc_new fl σ1) as Hnew2.
  pose proof (λ a, read_alloc_old fl σ1 a) as Hrd2.
  pose proof (λ m', view_alloc m' fl σ1 Hok1) as Hg2.
  destruct (alloc_array fl σ1) as [edgesLeft σ2] eqn:Ea2.
  assert (HeL : edgesLeft = length (arrays σ1)) by (by inversion Ea2).
  assert (HE2 : edgeMaps σ2 = edgeMaps σ1) by (by inversion Ea2).
  assert (HC2 : connMaps σ2 = connMaps σ1) by (by inversion Ea2).
  assert (HL2 : length (arrays σ2) = S (length (arrays σ1))).
  { inversion Ea2. simpl. rewrite length_app. simpl. lia. }
  cbn [fst snd] in Hok2, Hnew2, Hrd2, Hg2.
  pose proof (get_or_empty_spec m r σ2 Hok2) as H3.
  pose proof (λ m', view_get_or_empty m m' r σ2 Hok2) as Hg3.
  destruct (get_or_empty m r σ2) as [ar σ3]. cbn [fst snd] in H3, Hg3.
  destruct H3 as (Hok3 & HE3 & HC3 & Hlen3 & Hrd3 & Har & Hrar & _).
  set (fr := List.filter (remove_filter l r) (read ar σ3)).
  pose proof (store_ok_alloc fr σ3 Hok3) as Hok4.
  pose proof (read_alloc_new fr σ3) as Hnew4.
  pose proof (λ a, read_alloc_old fr σ3 a) as Hrd4.
  pose proof (λ m', view_alloc m' fr σ3 Hok3) as Hg4.
  destruct (alloc_array fr σ3) as [edgesRight σ4] eqn:Ea4.
  assert (HeR : edgesRight = length (arrays σ3)) by (by inversion Ea4).
  assert (HE4 : edgeMaps σ4 = edgeMaps σ3) by (by inversion Ea4).
  assert (HC4 : connMaps σ4 = connMaps σ3) by (by inversion Ea4).
  assert (HL4 : length (arrays σ4) = S (length (arrays σ3))).
  { inversion Ea4. simpl. rewrite length_app. simpl. lia. }
  cbn [fst snd] in Hok4, Hnew4, Hrd4, Hg4.
  assert (Hb4 : ∀ m0, bindings m0 σ4 = bindings m0 σ).
  { intros. apply bindings_edgeMaps_eq. congruence. }
  assert (Hview4 : ∀ m0, view m0 σ4 = view m0 σ).
  { intros. by rewrite Hg4, Hg3, Hg2, Hg1. }
  assert (Hm4 : m < length (edgeMaps σ4)) by congruence.
  assert (Hold : ∀ m0 k a, bindings m0 σ4 !! k = Some a →
            a < length (arrays σ)).
  { intros m0 k a. rewrite Hb4. destruct Hok as [Hv _]. apply Hv. }
  assert (Hok5 : store_ok (map_set m l edgesLeft σ4)).
  { apply store_ok_map_set; [done|lia|].
    intros m' k' Hb. apply Hold in Hb. lia. }
  assert (Hok6 : store_ok (map_set m r edgesRight (map_set m l edgesLeft σ4))).
  { apply store_ok_map_set; [done|simpl; lia|].
    intros m' k' Hb. exfalso.
    destruct (decide (m = m')) as [<-|Hne].
    - rewrite bindings_map_set_eq, lookup_insert in Hb by done.
      case_decide; simplify_eq; [lia|]. apply Hold in Hb. lia.
    - rewrite bindings_map_set_ne in Hb by done. apply Hold in Hb. lia. }
  split; [exact Hok6|].
  split; [rewrite !length_edgeMaps_map_set; congruence|].
  split; [simpl; congruence|].
  split; [|split; [|split]].
  - rewrite view_map_set_eq by (by rewrite length_edgeMaps_map_set).
    rewrite view_map_set_eq by done.
    change (read edgesRight (map_set m l edgesLeft σ4))
      with (read edgesRight σ4).
    rewrite Hview4. unfold remove_pair. cbn [fst snd].
    rewrite Hnew4, Hrd4, Hrd3, Hnew2 by lia.
    subst fl fr. rewrite Hral, Hrar, Hg2, Hg1. done.
  - intros m0 Hne. rewrite !view_map_set_ne by done. apply Hview4.
  - simpl. lia.
  - intros a Ha.
    change (read a σ4 = read a σ).
    rewrite Hrd4, Hrd3, Hrd2, Hrd1 by lia. done.
Qed.
End remove_step.

(** ** Whole batches *)

Section batches.
Implicit Types (σ : Store) (m a : nat) (k : string) (e : Edge)
               (es : list Edge) (s : State).

Lemma addActiveEdges_foldl_spec m es σ :
  store_ok σ → m < length (edgeMaps σ) →
  let σ' := foldl (addActiveEdges_each m) σ es in
  store_ok σ' ∧
  length (edgeMaps σ') = length (edgeMaps σ) ∧
  connMaps σ' = connMaps σ ∧
  view m σ' = foldl add_pair (view m σ) es ∧
  (∀ m0 k, existsb (endpoint k) es = false →
           view m0 σ' !! k = view m0 σ !! k).
Proof.
  revert σ. induction es as [|e es IH]; intros σ Hok Hm; simpl.
  { repeat split; auto. apply Hok. apply Hok. }
  destruct (addActiveEdges_each_spec m σ e Hok Hm)
    as (Hok1 & HL1 & HC1 & Hv1 & Hf1).
  destruct (IH (addActiveEdges_each m σ e) Hok1 ltac:(lia))
    as (Hok2 & HL2 & HC2 & Hv2 & Hf2).
  repeat split; try apply Hok2; try congruence.
  intros m0 k Hk. apply orb_false_iff in Hk as [Hk1 Hk2].
  by rewrite Hf2, Hf1.
Qed.

Lemma removeActiveEdges_foldl_spec m es σ :
  store_ok σ → m < length (edgeMaps σ) →
  let σ' := foldl (removeActiveEdges_each m) σ es in
  store_ok σ' ∧
  length (edgeMaps σ') = length (edgeMaps σ) ∧
  connMaps σ' = connMaps σ ∧
  view m σ' = foldl remove_pair (view m σ) es ∧
  (∀ m0, m0 ≠ m → view m0 σ' = view m0 σ) ∧
  length (arrays σ) ≤ length (arrays σ') ∧
  (∀ a, a < length (arrays σ) → read a σ' = read a σ).
Proof.
  revert σ. induction es as [|e es IH]; intros σ Hok Hm; simpl.
  { repeat split; auto. apply Hok. apply Hok. }
  destruct (removeActiveEdges_each_spec m σ e Hok Hm)
    as (Hok1 & HL1 & HC1 & Hv1 & Hf1 & Hmono & Hr1).
  destruct (IH (removeActiveEdges_each m σ e) Hok1 ltac:(lia))
    as (Hok2 & HL2 & HC2 & Hv2 & Hf2 & Hm2 & Hr2).
  repeat split; try apply Hok2; try congruence; try lia.
  - intros m0 Hne. by rewrite Hf2, Hf1.
  - intros a Ha. rewrite Hr2 by lia. by apply Hr1.
Qed.

End batches.

(** ** The mutators on states *)

Section states.
Implicit Types (σ : Store) (m a : nat) (k : string) (e : Edge)
               (es : list Edge) (s : State).

Lemma wf_initial : wf_state initial.
Proof.
  split; [split|simpl; lia].
  - intros m k a. destruct m as [|[|m]]; simpl; by rewrite ?lookup_empty.
  - intros m1 m2 k1 k2 a.
    destruct m1 as [|[|m1]]; simpl; by rewrite ?lookup_empty.
Qed.

Lemma index_initial : index initial = ∅.
Proof. reflexivity. Qed.

Lemma addActiveEdges_spec es s :
  wf_state s →
  wf_state (addActiveEdges es s) ∧
  index (addActiveEdges es s) = foldl add_pair (index s) es ∧
  cache (addActiveEdges es s) = cache s ∧
  activeEdges (addActiveEdges es s) = length (edgeMaps (store s)).
Proof.
  intros (Hok & Hm & Hc).
  destruct (addActiveEdges_foldl_spec (activeEdges s) es (store s) Hok Hm)
    as (Hok' & HL & HC & Hv & _).
  unfold addActiveEdges, addActiveEdges_updater, index, cache.
  set (σ' := foldl _ _ _) in *. cbn [new_Map store activeEdges connections].
  split; [|split; [|split]].
  - split; [apply (store_ok_new_Map _ _ Hok')|].
    simpl. rewrite length_app. simpl. rewrite HC. lia.
  - rewrite <- Hv. apply (view_new_Map_new (activeEdges s) σ').
  - unfold connBindings. simpl. by rewrite HC.
  - done.
Qed.

(** The index and [store_ok] only depend on the arrays and the
    [ActiveEdges] map objects. *)
Lemma view_same_objects m σ σ' :
  arrays σ' = arrays σ → edgeMaps σ' = edgeMaps σ → view m σ' = view m σ.
Proof. unfold view, bindings, read. by intros -> ->. Qed.

Lemma store_ok_same_objects σ σ' :
  arrays σ' = arrays σ → edgeMaps σ' = edgeMaps σ →
  store_ok σ → store_ok σ'.
Proof. unfold store_ok, bindings. by intros -> ->. Qed.

Lemma connBindings_delete c k σ :
  c < length (connMaps σ) →
  connBindings c (conn_delete c k σ) = delete k (connBindings c σ).
Proof.
  intros Hc. unfold connBindings at 1. simpl.
  by rewrite list_lookup_insert_eq.
Qed.

Lemma removeConnections_foldl_spec c es σ :
  c < length (connMaps σ) →
  let σ' := foldl (removeConnections_each c) σ es in
  arrays σ' = arrays σ ∧ edgeMaps σ' = edgeMaps σ ∧
  length (connMaps σ') = length (connMaps σ) ∧
  connBindings c σ' =
    foldl (λ M e, delete e.2 (delete e.1 M)) (connBindings c σ) es.
Proof.
  revert σ. induction es as [|e es IH]; intros σ Hc; simpl; [done|].
  set (σ1 := removeConnections_each c σ e).
  assert (HL1 : length (connMaps σ1) = length (connMaps σ)).
  { subst σ1. unfold removeConnections_each. simpl.
    by rewrite !length_insert. }
  assert (Hb1 : connBindings c σ1 = delete e.2 (delete e.1 (connBindings c σ))).
  { subst σ1. unfold removeConnections_each.
    rewrite connBindings_delete by (simpl; by rewrite length_insert).
    by rewrite connBindings_delete. }
  destruct (IH σ1 ltac:(lia)) as (HA & HE & HL & HB).
  repeat split; [by rewrite HA|by rewrite HE|lia|by rewrite HB, Hb1].
Qed.

Lemma removeActiveEdges_spec es s :
  wf_state s →
  wf_state (removeActiveEdges es s) ∧
  index (removeActiveEdges es s) = foldl remove_pair (index s) es ∧
  cache (removeActiveEdges es s) =
    foldl (λ M e, delete e.2 (delete e.1 M)) (cache s) es ∧
  activeEdges (removeActiveEdges es s) = length (edgeMaps (store s)) ∧
  connections (removeActiveEdges es s) = length (connMaps (store s)).
Proof.
  intros (Hok & Hm & Hc).
  destruct (removeActiveEdges_foldl_spec (activeEdges s) es (store s) Hok Hm)
    as (Hok' & HL & HC & Hv & _).
  unfold removeActiveEdges, removeActiveEdges_updater,
    removeConnections_updater, index, cache.
  set (σ1 := foldl (removeActiveEdges_each _) _ _) in *.
  cbn [new_Map]. set (σ2 := mkStore _ _ _).
  assert (Hok2 : store_ok σ2) by apply (store_ok_new_Map _ _ Hok').
  assert (Hc2 : connections s < length (connMaps σ2))
    by (simpl; by rewrite HC).
  destruct (removeConnections_foldl_spec (connections s) es σ2 Hc2)
    as (HA3 & HE3 & HL3 & HB3).
  set (σ3 := foldl (removeConnections_each _) _ _) in *.
  cbn [new_connMap store activeEdges connections].
  split; [|split; [|split; [|split]]].
  - split; [|split].
    + by apply (store_ok_same_objects σ2).
    + simpl. rewrite HE3. simpl. rewrite length_app. simpl. lia.
    + simpl. rewrite length_app. simpl. lia.
  - rewrite (view_same_objects _ σ2) by done.
    rewrite <- Hv. apply (view_new_Map_new (activeEdges s) σ1).
  - unfold connBindings at 1. simpl.
    rewrite lookup_app_r, Nat.sub_diag by lia. simpl.
    rewrite HB3. unfold connBindings. simpl. by rewrite HC.
  - done.
  - rewrite HL3. simpl. by rewrite HC.
Qed.

Lemma wf_run ops s : wf_state s → wf_state (run ops s).
Proof.
  revert s. induction ops as [|o ops IH]; intros s Hwf; [done|].
  simpl. apply IH. destruct o; simpl.
  - by apply addActiveEdges_spec.
  - by apply removeActiveEdges_spec.
Qed.

End states.

(** ** The index as a value: insertion *)

Section index_facts.
Implicit Types (idx : gmap string (list Edge)) (k : string) (e : Edge)
               (es : list Edge).

Lemma existsb_same_pair e (l : list Edge) :
  existsb (same_pair e.1 e.2) l = true ↔ e ∈ l.
Proof.
  rewrite existsb_exists. split.
  - intros (x & Hin & Hx). apply list_elem_of_In in Hin.
    unfold same_pair in Hx. apply andb_true_iff in Hx as [H1 H2].
    apply bool_decide_eq_true in H1, H2.
    destruct x, e; simpl in *; by subst.
  - intros Hin. exists e. split; [by apply list_elem_of_In|].
    unfold same_pair. by rewrite !bool_decide_eq_true_2.
Qed.

Lemma elem_of_default_Some idx k e :
  e ∈ default [] (idx !! k) → ∃ l, idx !! k = Some l ∧ e ∈ l.
Proof.
  destruct (idx !! k) as [l|]; simpl; [eauto|].
  intros H. by apply not_elem_of_nil in H.
Qed.

Lemma add_pair_present_id idx e : present idx e → add_pair idx e = idx.
Proof.
  intros [H1 H2]. unfold add_pair.
  pose proof (proj2 (existsb_same_pair e _) H1) as ->.
  pose proof (proj2 (existsb_same_pair e _) H2) as ->.
  apply elem_of_default_Some in H1 as (l1 & E1 & _).
  apply elem_of_default_Some in H2 as (l2 & E2 & _).
  rewrite E1, E2. simpl.
  case_decide; rewrite ?(insert_id _ _ _ E1); by rewrite ?(insert_id _ _ _ E2).
Qed.

Lemma present_add_pair idx e : present (add_pair idx e) e.
Proof.
  unfold present, add_pair.
  destruct (existsb (same_pair e.1 e.2) (default [] (idx !! e.1))) eqn:D1;
  destruct (existsb (same_pair e.1 e.2) (default [] (idx !! e.2))) eqn:D2;
  try apply existsb_same_pair in D1; try apply existsb_same_pair in D2;
  case_decide as Hlr; try rewrite <- Hlr;
    rewrite ?lookup_insert_eq; try rewrite lookup_insert_ne by done;
    rewrite ?lookup_insert_eq; simpl; try rewrite <- Hlr in D2;
    try (split; set_solver);
    try (split; destruct (idx !! e.1); set_solver).
Qed.

Lemma extends_refl idx : extends idx idx.
Proof. intros k l H. exists []. by rewrite app_nil_r. Qed.

Lemma extends_trans idx1 idx2 idx3 :
  extends idx1 idx2 → extends idx2 idx3 → extends idx1 idx3.
Proof.
  intros H12 H23 k l H. destruct (H12 _ _ H) as (l' & H').
  destruct (H23 _ _ H') as (l'' & H''). exists (l' ++ l'').
  by rewrite app_assoc.
Qed.

Lemma extends_insert idx k (f : list Edge) :
  extends idx (<[k := default [] (idx !! k) ++ f]> idx).
Proof.
  intros k' l H. destruct (decide (k = k')) as [<-|Hne].
  - rewrite lookup_insert_eq, H. simpl. eauto.
  - rewrite lookup_insert_ne by done. exists []. by rewrite app_nil_r.
Qed.

Lemma add_pair_extends idx e : extends idx (add_pair idx e).
Proof.
  unfold add_pair. case_decide as Hlr.
  - destruct (existsb _ _).
    + rewrite <- (app_nil_r (default [] _)). apply extends_insert.
    + destruct (idx !! e.1) as [l|] eqn:E.
      * rewrite <- E. apply extends_insert.
      * change [e] with (default [] None ++ [e]). rewrite <- E.
        apply extends_insert.
  - eapply extends_trans.
    + instantiate (1 := <[e.1 := _]> idx).
      instantiate (1 := default [] (idx !! e.1) ++
        (if existsb (same_pair e.1 e.2) (default [] (idx !! e.1))
         then [] else [e])).
      apply extends_insert.
    + match goal with
      | |- extends ?X (<[e.2 := ?v]> ?Y) =>
          replace Y with X; [replace v with
            (default [] (X !! e.2) ++
             (if existsb (same_pair e.1 e.2) (default [] (idx !! e.2))
              then [] else [e]))|]
      end.
      * apply extends_insert.
      * rewrite lookup_insert_ne by done.
        destruct (existsb _ (default [] (idx !! e.2)));
          by rewrite ?app_nil_r.
      * destruct (existsb _ (default [] (idx !! e.1)));
          by rewrite ?app_nil_r.
Qed.

Lemma present_extends idx idx' e :
  extends idx idx' → present idx e → present idx' e.
Proof.
  intros Hext [H1 H2].
  apply elem_of_default_Some in H1 as (l1 & E1 & I1).
  apply elem_of_default_Some in H2 as (l2 & E2 & I2).
  destruct (Hext _ _ E1) as (l1' & E1'), (Hext _ _ E2) as (l2' & E2').
  unfold present. rewrite E1', E2'. simpl. set_solver.
Qed.

Lemma foldl_add_pair_extends es idx : extends idx (foldl add_pair idx es).
Proof.
  revert idx. induction es as [|e es IH]; intros idx; simpl.
  - apply extends_refl.
  - eapply extends_trans; [apply add_pair_extends|apply IH].
Qed.

(** After a batch every pair of it is under both its connectors. *)
Lemma foldl_add_pair_present es idx e :
  e ∈ es → present (foldl add_pair idx es) e.
Proof.
  revert idx. induction es as [|e' es IH]; intros idx Hin.
  - by apply not_elem_of_nil in Hin.
  - simpl. apply elem_of_cons in Hin as [->|Hin]; [|by apply IH].
    eapply present_extends; [apply foldl_add_pair_extends|].
    apply present_add_pair.
Qed.

(** A batch of pairs that are all there changes nothing. *)
Lemma foldl_add_pair_id es idx :
  (∀ e, e ∈ es → present idx e) → foldl add_pair idx es = idx.
Proof.
  induction es as [|e es IH]; intros Hall; simpl; [done|].
  rewrite add_pair_present_id by (apply Hall; set_solver).
  apply IH. intros e' He'. apply Hall. set_solver.
Qed.

Lemma foldl_add_pair_idem es idx :
  foldl add_pair (foldl add_pair idx es) es = foldl add_pair idx es.
Proof.
  apply foldl_add_pair_id. intros e He. by apply foldl_add_pair_present.
Qed.

End index_facts.

(** ** The index as a value: removal and provenance *)

Section index_removal.
Implicit Types (idx : gmap string (list Edge)) (k : string) (e : Edge)
               (es : list Edge).

(** One iteration at a connector of the pair: the list is filtered and
    the key is bound, whether it was before or not. *)
Lemma remove_pair_lookup_endpoint idx e k :
  endpoint k e = true →
  remove_pair idx e !! k =
  Some (List.filter (remove_filter e.1 e.2) (default [] (idx !! k))).
Proof.
  unfold endpoint, remove_pair. intros H.
  apply orb_true_iff in H as [H|H]; apply bool_decide_eq_true in H; subst k.
  - destruct (decide (e.2 = e.1)) as [Heq|Hne].
    + rewrite Heq. by rewrite lookup_insert_eq.
    + rewrite lookup_insert_ne by done. by rewrite lookup_insert_eq.
  - by rewrite lookup_insert_eq.
Qed.

Lemma remove_pair_lookup idx e k :
  remove_pair idx e !! k =
  if endpoint k e
  then Some (List.filter (remove_filter e.1 e.2) (default [] (idx !! k)))
  else idx !! k.
Proof.
  destruct (endpoint k e) eqn:E.
  - by apply remove_pair_lookup_endpoint.
  - by apply remove_pair_lookup_ne.
Qed.

Lemma filter_filter_andb {A} (f g : A → bool) (l : list A) :
  List.filter f (List.filter g l) = List.filter (λ x, g x && f x) l.
Proof.
  induction l as [|x l IH]; simpl; [done|].
  destruct (g x); simpl; [destruct (f x)|]; by rewrite IH.
Qed.

(** A whole batch at one key: untouched when no pair of the batch has the
    key as a connector, else bound to the old list (empty when the key
    was unbound) filtered by every such pair. *)
Lemma foldl_remove_pair_lookup es idx k :
  foldl remove_pair idx es !! k =
  if existsb (endpoint k) es
  then Some (List.filter (batch_filter k es) (default [] (idx !! k)))
  else idx !! k.
Proof.
  revert idx. induction es as [|e es IH]; intros idx; simpl; [done|].
  rewrite IH, remove_pair_lookup. unfold batch_filter. simpl.
  destruct (endpoint k e) eqn:E; simpl.
  - destruct (existsb (endpoint k) es) eqn:Ex; simpl.
    + by rewrite filter_filter_andb.
    + f_equal. apply List.filter_ext. intros x.
      assert (forallb (λ p, implb (endpoint k p) (remove_filter p.1 p.2 x)) es
              = true) as ->; [|by rewrite andb_true_r].
      apply forallb_forall. intros p Hp.
      assert (endpoint k p = false) as ->; [|done].
      destruct (endpoint k p) eqn:Ep; [|done].
      assert (existsb (endpoint k) es = true); [|congruence].
      apply existsb_exists. eauto.
  - done.
Qed.

Lemma tracked_mono A A' idx :
  (∀ e, e ∈ A → e ∈ A') → tracked A idx → tracked A' idx.
Proof. intros Hsub Ht k l e Hk He. destruct (Ht k l e Hk He). auto. Qed.

Lemma tracked_empty A : tracked A ∅.
Proof. intros k l e Hk. by rewrite lookup_empty in Hk. Qed.

Lemma tracked_insert A idx k (l : list Edge) :
  tracked A idx → (∀ e, e ∈ l → e ∈ A ∧ endpoint k e = true) →
  tracked A (<[k := l]> idx).
Proof.
  intros Ht Hl k' l' e Hk He. rewrite lookup_insert in Hk.
  case_decide; simplify_eq; eauto.
Qed.

Lemma tracked_default A idx k e :
  tracked A idx → e ∈ default [] (idx !! k) → e ∈ A ∧ endpoint k e = true.
Proof.
  intros Ht He. apply elem_of_default_Some in He as (l & E & He). eauto.
Qed.

Lemma endpoint_fst e : endpoint e.1 e = true.
Proof. unfold endpoint. by rewrite bool_decide_eq_true_2. Qed.

Lemma endpoint_snd e : endpoint e.2 e = true.
Proof.
  unfold endpoint. rewrite (bool_decide_eq_true_2 (e.2 = e.2)) by done.
  apply orb_true_r.
Qed.

Lemma tracked_add_pair A idx e :
  e ∈ A → tracked A idx → tracked A (add_pair idx e).
Proof.
  intros HA Ht. unfold add_pair.
  pose proof (endpoint_fst e). pose proof (endpoint_snd e).
  pose proof (tracked_default A idx e.1) as T1.
  pose proof (tracked_default A idx e.2) as T2.
  case_decide.
  - apply tracked_insert; [done|]. intros x Hx.
    destruct (existsb _ _); [by apply T1|].
    destruct (idx !! e.1) as [l|] eqn:E; simpl in *.
    + rewrite !elem_of_app, !elem_of_cons in Hx.
      destruct Hx as [Hx|[->|[->|Hx]]]; auto. by apply not_elem_of_nil in Hx.
    + apply list_elem_of_singleton in Hx as ->. auto.
  - apply tracked_insert; [apply tracked_insert; [done|]|].
    + intros x Hx. destruct (existsb _ _); [by apply T1|].
      apply elem_of_app in Hx as [Hx|Hx]; [by apply T1|].
      apply list_elem_of_singleton in Hx as ->. auto.
    + intros x Hx. destruct (existsb _ (default [] (idx !! e.2)));
        [by apply T2|].
      apply elem_of_app in Hx as [Hx|Hx]; [by apply T2|].
      apply list_elem_of_singleton in Hx as ->. auto.
Qed.

Lemma tracked_remove_pair A idx e : tracked A idx → tracked A (remove_pair idx e).
Proof.
  intros Ht k l x Hk Hx. rewrite remove_pair_lookup in Hk.
  destruct (endpoint k e); [|eauto]. simplify_eq.
  apply list_elem_of_In, filter_In in Hx as [Hx _].
  apply list_elem_of_In in Hx. by eapply tracked_default.
Qed.

Lemma tracked_foldl_add_pair A es idx :
  (∀ e, e ∈ es → e ∈ A) → tracked A idx → tracked A (foldl add_pair idx es).
Proof.
  revert idx. induction es as [|e es IH]; intros idx Hsub Ht; simpl; [done|].
  apply IH; [set_solver|]. apply tracked_add_pair; [set_solver|done].
Qed.

Lemma tracked_foldl_remove_pair A es idx :
  tracked A idx → tracked A (foldl remove_pair idx es).
Proof.
  revert idx. induction es as [|e es IH]; intros idx Ht; simpl; [done|].
  apply IH. by apply tracked_remove_pair.
Qed.

(** A connector with nothing stored under it is not active. *)
Lemma hasActiveEdgeConnector_false idx k :
  hasActiveEdgeConnector idx k = false ↔ ∀ e, e ∉ default [] (idx !! k).
Proof.
  unfold hasActiveEdgeConnector.
  destruct (idx !! k) as [[|x l]|]; simpl; split; try done.
  - intros _ e. apply not_elem_of_nil.
  - intros H. exfalso. apply (H x). set_solver.
  - intros _ e. apply not_elem_of_nil.
Qed.

Lemma hasActiveEdgeConnector_true idx k :
  hasActiveEdgeConnector idx k = true ↔ ∃ e, e ∈ default [] (idx !! k).
Proof.
  unfold hasActiveEdgeConnector.
  destruct (idx !! k) as [[|x l]|]; simpl; split; try done.
  - intros [e He]. by apply not_elem_of_nil in He.
  - intros _. exists x. set_solver.
  - intros [e He]. by apply not_elem_of_nil in He.
Qed.

End index_removal.

(** ** Snapshots and histories *)

Section snapshots.
Implicit Types (σ : Store) (m a : nat) (k : string) (e : Edge)
               (es : list Edge) (s : State).

(** An iteration of [addActiveEdges] for a pair that is already under
    both its connectors leaves the store as it is: nothing is pushed and
    both [set] calls rebind a key to the array it has. *)
Lemma addActiveEdges_each_present m σ e :
  present (view m σ) e → addActiveEdges_each m σ e = σ.
Proof.
  intros [H1 H2].
  apply elem_of_default_Some in H1 as (l1 & E1 & I1).
  apply elem_of_default_Some in H2 as (l2 & E2 & I2).
  rewrite view_lookup in E1, E2.
  destruct (bindings m σ !! e.1) as [a1|] eqn:B1; [|done].
  destruct (bindings m σ !! e.2) as [a2|] eqn:B2; [|done].
  simpl in E1, E2. simplify_eq.
  unfold addActiveEdges_each, get_or_empty. rewrite B1, B2.
  rewrite (proj2 (existsb_same_pair e _) I1).
  rewrite (proj2 (existsb_same_pair e _) I2). simpl.
  rewrite (map_set_id _ _ _ _ B1). by apply map_set_id.
Qed.

Lemma wf_setConnections C s : wf_state s → wf_state (setConnections C s).
Proof.
  intros (Hok & Hm & Hc). split; [|split]; simpl.
  - by apply (store_ok_same_objects (store s)).
  - done.
  - rewrite length_app. simpl. lia.
Qed.

Lemma cache_setConnections C s : cache (setConnections C s) = C.
Proof.
  unfold cache, connBindings. simpl.
  by rewrite lookup_app_r, Nat.sub_diag by lia.
Qed.

(** What [addActiveEdges] does to the map objects that were there before
    the call: lists under keys the batch does not mention are as they
    were, and the object that was the state shows what the new state
    shows. *)
Lemma addActiveEdges_frame es s m0 :
  wf_state s → m0 < length (edgeMaps (store s)) →
  (∀ k, existsb (endpoint k) es = false →
        view m0 (store (addActiveEdges es s)) !! k = view m0 (store s) !! k) ∧
  view (activeEdges s) (store (addActiveEdges es s)) =
    index (addActiveEdges es s).
Proof.
  intros (Hok & Hm & Hc) Hm0.
  destruct (addActiveEdges_foldl_spec (activeEdges s) es (store s) Hok Hm)
    as (Hok' & HL & HC & Hv & Hf).
  unfold index, addActiveEdges, addActiveEdges_updater.
  set (σ1 := foldl _ _ _) in *.
  cbn [new_Map store activeEdges].
  split.
  - intros k Hk. rewrite <- (Hf m0 k Hk).
    f_equal. apply (view_new_Map_old (activeEdges s) m0 σ1). lia.
  - etrans; [apply (view_new_Map_old (activeEdges s) _ σ1); lia|].
    symmetry. apply (view_new_Map_new (activeEdges s) σ1).
Qed.

(** The same for [removeActiveEdges], which moreover leaves every array
    and every map object but the one that was the state untouched. *)
Lemma removeActiveEdges_frame es s m0 :
  wf_state s → m0 < length (edgeMaps (store s)) →
  (∀ k, existsb (endpoint k) es = false →
        view m0 (store (removeActiveEdges es s)) !! k
        = view m0 (store s) !! k) ∧
  (m0 ≠ activeEdges s →
   view m0 (store (removeActiveEdges es s)) = view m0 (store s)) ∧
  view (activeEdges s) (store (removeActiveEdges es s)) =
    index (removeActiveEdges es s).
Proof.
  intros (Hok & Hm & Hc) Hm0.
  destruct (removeActiveEdges_foldl_spec (activeEdges s) es (store s) Hok Hm)
    as (Hok' & HL & HC & Hv & Hf & _).
  unfold index, removeActiveEdges, removeActiveEdges_updater,
    removeConnections_updater.
  set (σ1 := foldl (removeActiveEdges_each _) _ _) in *.
  cbn [new_Map]. set (σ2 := mkStore _ _ _).
  assert (Hc2 : connections s < length (connMaps σ2))
    by (simpl; by rewrite HC).
  destruct (removeConnections_foldl_spec (connections s) es σ2 Hc2)
    as (HA3 & HE3 & HL3 & HB3).
  set (σ3 := foldl (removeConnections_each _) _ _) in *.
  cbn [new_connMap store activeEdges].
  assert (Hsame : ∀ m, view m (mkStore (arrays σ3) (edgeMaps σ3)
              (connMaps σ3 ++ [connBindings (connections s) σ3]))
            = view m σ2)
    by (intros; by apply view_same_objects).
  assert (Hold : ∀ m, m < length (edgeMaps (store s)) →
            view m σ2 = view m σ1).
  { intros m Hlt. apply (view_new_Map_old (activeEdges s) m σ1). lia. }
  rewrite !Hsame.
  assert (Hne : m0 ≠ activeEdges s → view m0 σ2 = view m0 (store s)).
  { intros Hne. rewrite Hold by done. by apply Hf. }
  split; [|split].
  - intros k Hk. destruct (decide (m0 = activeEdges s)) as [->|Hne'].
    + rewrite Hold, Hv by done.
      by rewrite foldl_remove_pair_lookup, Hk.
    + by rewrite Hne.
  - exact Hne.
  - rewrite Hold by done.
    symmetry. apply (view_new_Map_new (activeEdges s) σ1).
Qed.

Lemma tracked_run ops s A :
  wf_state s → tracked A (index s) →
  tracked (A ++ added ops) (index (run ops s)).
Proof.
  revert s A. induction ops as [|o ops IH]; intros s A Hwf Ht; simpl.
  - by rewrite app_nil_r.
  - rewrite app_assoc. destruct o as [es|es]; simpl.
    + destruct (addActiveEdges_spec es s Hwf) as (Hwf' & Hi & _).
      apply IH; [done|]. rewrite Hi.
      apply tracked_foldl_add_pair; [set_solver|].
      eapply tracked_mono; [|done]. set_solver.
    + destruct (removeActiveEdges_spec es s Hwf) as (Hwf' & Hi & _).
      rewrite app_nil_r. apply IH; [done|]. rewrite Hi.
      by apply tracked_foldl_remove_pair.
Qed.

Lemma foldl_delete_lookup (M : gmap string Connections) es k :
  foldl (λ M e, delete e.2 (delete e.1 M)) M es !! k =
  if existsb (endpoint k) es then None else M !! k.
Proof.
  revert M. induction es as [|e es IH]; intros M; simpl; [done|].
  rewrite IH. unfold endpoint at 2.
  destruct (existsb (endpoint k) es); simpl; [by rewrite orb_true_r|].
  rewrite orb_false_r. rewrite !lookup_delete.
  repeat case_bool_decide; repeat case_decide; simpl; congruence.
Qed.

Lemma existsb_endpoint_fst es e :
  e ∈ es → existsb (endpoint e.1) es = true.
Proof.
  intros He. apply existsb_exists. exists e.
  split; [by apply list_elem_of_In|apply endpoint_fst].
Qed.

Lemma existsb_endpoint_snd es e :
  e ∈ es → existsb (endpoint e.2) es = true.
Proof.
  intros He. apply existsb_exists. exists e.
  split; [by apply list_elem_of_In|apply endpoint_snd].
Qed.

(** After [addActiveEdges] every pair of the batch is under both its
    connectors, so both connectors are active and the pair is found. *)
Lemma addActiveEdges_bidirectional es s e :
  wf_state s → e ∈ es →
  let s' := addActiveEdges es s in
  present (index s') e ∧
  hasActiveEdgeConnector (index s') e.1 = true ∧
  hasActiveEdgeConnector (index s') e.2 = true ∧
  checkActiveEdge s' (Some e.1, Some e.2) = true.
Proof.
  intros Hwf He s'.
  destruct (addActiveEdges_spec es s Hwf) as (_ & Hi & _).
  assert (Hp : present (index s') e).
  { subst s'. rewrite Hi. by apply foldl_add_pair_present. }
  split; [done|]. destruct Hp as [H1 H2].
  split; [apply hasActiveEdgeConnector_true; eauto|].
  split; [apply hasActiveEdgeConnector_true; eauto|].
  unfold checkActiveEdge, hasActiveEdge. simpl.
  apply orb_true_iff. left. apply existsb_exists. exists e.
  split; [by apply list_elem_of_In|].
  unfold pair_matches. by rewrite bool_decide_eq_true_2.
Qed.

(** What the filter of [removeActiveEdges] keeps under the left connector
    of the removed pair: no pair with that connector on its left, whatever
    its right connector. *)
Lemma removeActiveEdges_drops_same_left s (a b c : string) :
  wf_state s →
  (a, c) ∉ default [] (index (removeActiveEdges [(a, b)] s) !! a).
Proof.
  intros Hwf.
  destruct (removeActiveEdges_spec [(a, b)] s Hwf) as (_ & Hi & _).
  rewrite Hi. simpl. rewrite remove_pair_lookup_endpoint
    by (unfold endpoint; simpl; by rewrite bool_decide_eq_true_2).
  simpl. intros Hin. apply list_elem_of_In, filter_In in Hin as [_ Hf].
  unfold remove_filter in Hf. simpl in Hf.
  by rewrite bool_decide_eq_true_2 in Hf.
Qed.

End snapshots.

(** ** The selected-edges view *)

Section selection.
Context {A : Type}.
Implicit Types (nc : gmap string (JsValue A)) (sel : list string)
               (v w : JsValue A).

Lemma flat_app (xs ys : list (JsValue A)) :
  flat (xs ++ ys) = flat xs ++ flat ys.
Proof. unfold flat. apply flat_map_app. Qed.

Lemma selectedEdges_nil nc : selectedEdges [] nc = [].
Proof. reflexivity. Qed.

Lemma selectedEdges_cons id sel nc :
  selectedEdges (id :: sel) nc = flat [prop nc id] ++ selectedEdges sel nc.
Proof.
  unfold selectedEdges, flat. simpl. by rewrite app_nil_r.
Qed.

Lemma selectedEdges_app sel1 sel2 nc :
  selectedEdges (sel1 ++ sel2) nc
  = selectedEdges sel1 nc ++ selectedEdges sel2 nc.
Proof. unfold selectedEdges. by rewrite map_app, flat_app. Qed.

(** When the looked-up values are nodes, not lists, [flat] has nothing to
    splice and the result has one node per selected ID. *)
Lemma selectedEdges_nodes sel nc (node : string → A) :
  (∀ id, id ∈ sel → nc !! id = Some (JsNode (node id))) →
  selectedEdges sel nc = map (λ id, JsNode (node id)) sel.
Proof.
  induction sel as [|id sel IH]; intros Hall; [done|].
  rewrite selectedEdges_cons. simpl.
  rewrite IH by (intros i Hi; apply Hall; by apply list_elem_of_further).
  unfold prop. by rewrite (Hall id) by apply list_elem_of_here.
Qed.


(** A lookup that misses never yields a node. *)
Lemma inherited_prop_not_node (id : string) (n : A) :
  inherited_prop id ≠ JsNode n.
Proof. unfold inherited_prop. by case_bool_decide. Qed.

End selection.

(** * The claims *)

Section claims.
Local Open Scope string_scope.
Local Open Scope list_scope.

(** C1 (exact-match removal), evaluated on the provider: from the initial
    state, after [addActiveEdges] of (a,b) and (a,c), [removeActiveEdges]
    of (a,b) alone leaves the list under a empty.  The pair (a,c) is still
    found through the list under c, but the connector a is no longer
    active: the filter drops every pair whose first connector is a. *)
Theorem removeActiveEdges_drops_shared_endpoint :
  let s := addActiveEdges [("a", "b"); ("a", "c")] initial in
  let s' := removeActiveEdges [("a", "b")] s in
  index s !! "a" = Some [("a", "b"); ("a", "c")] ∧
  index s' !! "a" = Some [] ∧
  index s' !! "c" = Some [("a", "c")] ∧
  checkActiveEdge s' (Some "a", Some "c") = true ∧
  hasActiveEdgeConnector (index s') "a" = false.
Proof. vm_compute. repeat split. Qed.

(** C2 (bidirectional consistency), evaluated on the provider: after the
    same calls the pair (a,c) is under c and not under a, so the index is
    not consistent after a removal. *)
Theorem bidirectional_broken_by_removal :
  let s := addActiveEdges [("a", "b"); ("a", "c")] initial in
  let s' := removeActiveEdges [("a", "b")] s in
  present (index s) ("a", "c") ∧
  ("a", "c") ∈ default [] (index s' !! "c") ∧
  ("a", "c") ∉ default [] (index s' !! "a").
Proof.
  split; [|split].
  - split; apply (bool_decide_unpack _); by vm_compute.
  - apply (bool_decide_unpack _); by vm_compute.
  - apply (bool_decide_unpack _); by vm_compute.
Qed.

(** C3 (idempotent insert): on a well-formed state, a second
    [addActiveEdges] of the same batch leaves every per-key list, hence
    every query answer, as the first call left it; and inside one batch a
    later occurrence of a pair does nothing at all: the call yields the
    very state the batch without that occurrence yields. *)
Theorem addActiveEdges_idempotent (es : list Edge) (s : State) :
  wf_state s →
  let s1 := addActiveEdges es s in
  let s2 := addActiveEdges es s1 in
  index s2 = index s1 ∧
  (∀ edge, checkActiveEdge s2 edge = checkActiveEdge s1 edge) ∧
  (∀ c, hasActiveEdgeConnector (index s2) c
        = hasActiveEdgeConnector (index s1) c) ∧
  (∀ pre e mid post, es = pre ++ e :: mid ++ e :: post →
     addActiveEdges es s = addActiveEdges (pre ++ e :: mid ++ post) s).
Proof.
  intros Hwf s1 s2.
  destruct (addActiveEdges_spec es s Hwf) as (Hwf1 & Hi1 & _).
  destruct (addActiveEdges_spec es s1 Hwf1) as (_ & Hi2 & _).
  assert (Heq : index s2 = index s1).
  { subst s2. rewrite Hi2. subst s1. rewrite Hi1.
    apply foldl_add_pair_idem. }
  split; [done|]. split; [|split].
  - intros edge. unfold checkActiveEdge. by rewrite Heq.
  - intros c. by rewrite Heq.
  - intros pre e mid post ->.
    unfold addActiveEdges, addActiveEdges_updater.
    replace (pre ++ e :: mid ++ e :: post)
      with ((pre ++ e :: mid) ++ e :: post)
      by (by rewrite <- app_assoc).
    replace (pre ++ e :: mid ++ post) with ((pre ++ e :: mid) ++ post)
      by (by rewrite <- app_assoc).
    assert (He : e ∈ pre ++ e :: mid) by set_solver.
    revert He. generalize (pre ++ e :: mid). intros pm He.
    rewrite !foldl_app. simpl.
    rewrite addActiveEdges_each_present; [done|].
    destruct Hwf as (Hok & Hm & _).
    destruct (addActiveEdges_foldl_spec (activeEdges s) pm
                (store s) Hok Hm) as (_ & _ & _ & Hv & _).
    rewrite Hv. by apply foldl_add_pair_present.
Qed.

Lemma addActiveEdges_idempotent_witness :
  wf_state initial ∧
  index (addActiveEdges [("a", "b"); ("a", "c"); ("a", "b")]
           (addActiveEdges [("a", "b"); ("a", "c"); ("a", "b")] initial))
  = index (addActiveEdges [("a", "b"); ("a", "c"); ("a", "b")] initial) ∧
  addActiveEdges [("a", "b"); ("a", "c"); ("a", "b")] initial
  = addActiveEdges [("a", "b"); ("a", "c")] initial.
Proof.
  split; [exact wf_initial|].
  destruct (addActiveEdges_idempotent
              [("a", "b"); ("a", "c"); ("a", "b")] initial wf_initial)
    as (H1 & _ & _ & H4).
  split; [exact H1|].
  exact (H4 [] ("a", "b") [("a", "c")] [] eq_refl).
Defined.

(** C4 ([isActiveColumn]): it answers true exactly when the list the index
    keeps under the left connector of the column, or the one under its
    right connector, holds an edge; and it answers false in a state the
    mutators reached from the initial one without ever being given a pair
    with one of the two connectors. *)
Theorem isActiveColumn_spec (toID : EnumSide → string → string → string)
    (s : State) (modelName columnName : string) :
  (isActiveColumn toID s modelName columnName = true ↔
     (∃ e, e ∈ default [] (index s !! toID Left modelName columnName)) ∨
     (∃ e, e ∈ default [] (index s !! toID Right modelName columnName))) ∧
  (isActiveColumn toID s modelName columnName =
     hasActiveEdgeConnector (index s) (toID Left modelName columnName) ||
     hasActiveEdgeConnector (index s) (toID Right modelName columnName)) ∧
  (∀ ops, s = run ops initial →
     (∀ e, e ∈ added ops →
           endpoint (toID Left modelName columnName) e = false ∧
           endpoint (toID Right modelName columnName) e = false) →
     isActiveColumn toID s modelName columnName = false).
Proof.
  split; [|split].
  - unfold isActiveColumn. cbn zeta.
    rewrite orb_true_iff, !hasActiveEdgeConnector_true. done.
  - done.
  - intros ops -> Hnone. unfold isActiveColumn. cbn zeta.
    pose proof (tracked_run ops initial [] wf_initial) as Ht.
    rewrite index_initial in Ht. specialize (Ht (tracked_empty _)).
    simpl in Ht.
    apply orb_false_iff. split; apply hasActiveEdgeConnector_false;
      intros e He; destruct (tracked_default _ _ _ _ Ht He) as [HA Hend];
      destruct (Hnone e HA); congruence.
Qed.

Lemma isActiveColumn_spec_witness :
  run [Add [("left__A__col1", "right__B__col2")]] initial
  = run [Add [("left__A__col1", "right__B__col2")]] initial ∧
  isActiveColumn joinID
    (run [Add [("left__A__col1", "right__B__col2")]] initial) "A" "col3"
  = false ∧
  isActiveColumn joinID
    (run [Add [("left__A__col1", "right__B__col2")]] initial) "A" "col1"
  = true.
Proof.
  split; [reflexivity|]. split.
  - destruct (isActiveColumn_spec joinID
               (run [Add [("left__A__col1", "right__B__col2")]] initial)
               "A" "col3") as (_ & _ & H).
    apply (H [Add [("left__A__col1", "right__B__col2")]] eq_refl).
    intros e He. simpl in He. apply list_elem_of_singleton in He as ->.
    vm_compute. done.
  - vm_compute. reflexivity.
Defined.

(** C5 (connectivity-cache invalidation): after [removeActiveEdges] the
    connections cache has no entry under either connector of any pair of
    the batch, and its entry under any other key is what it was. *)
Theorem removeActiveEdges_invalidates_connections (es : list Edge)
    (s : State) :
  wf_state s →
  let s' := removeActiveEdges es s in
  (∀ e, e ∈ es → cache s' !! e.1 = None ∧ cache s' !! e.2 = None) ∧
  (∀ k, (∀ e, e ∈ es → k ≠ e.1 ∧ k ≠ e.2) → cache s' !! k = cache s !! k).
Proof.
  intros Hwf s'.
  destruct (removeActiveEdges_spec es s Hwf) as (_ & _ & Hc & _).
  subst s'. rewrite Hc. split.
  - intros e He. rewrite !foldl_delete_lookup.
    by rewrite existsb_endpoint_fst, existsb_endpoint_snd.
  - intros k Hk. rewrite foldl_delete_lookup.
    destruct (existsb (endpoint k) es) eqn:E; [|done].
    apply existsb_exists in E as (e & He & Hend).
    apply list_elem_of_In in He. destruct (Hk e He) as [H1 H2].
    unfold endpoint in Hend.
    rewrite !bool_decide_eq_false_2 in Hend by done. done.
Qed.

Lemma removeActiveEdges_invalidates_connections_witness :
  let C : gmap string Connections :=
    {[ "a" := mkConnections [] ["b"];
       "b" := mkConnections ["a"] [];
       "z" := mkConnections ["y"] [] ]} in
  let s := setConnections C (addActiveEdges [("a", "b")] initial) in
  let s' := removeActiveEdges [("a", "b")] s in
  wf_state s ∧
  cache s !! "a" = Some (mkConnections [] ["b"]) ∧
  cache s' !! "a" = None ∧ cache s' !! "b" = None ∧
  cache s' !! "z" = Some (mkConnections ["y"] []).
Proof.
  intros C s s'.
  assert (Hwf : wf_state s).
  { apply wf_setConnections. apply addActiveEdges_spec. exact wf_initial. }
  destruct (removeActiveEdges_invalidates_connections [("a", "b")] s Hwf)
    as [H1 H2].
  split; [exact Hwf|]. split; [reflexivity|].
  destruct (H1 ("a", "b") ltac:(by apply list_elem_of_singleton)) as [Ha Hb].
  split; [exact Ha|]. split; [exact Hb|].
  subst s'. rewrite (H2 "z"); [reflexivity|].
  intros e He. apply list_elem_of_singleton in He as ->. done.
Defined.

(** C6 (removal of an absent pair), evaluated on the provider: with only
    the pair from A.col1 to C.col3 in the index, the pair from A.col1 to
    B.col2 is in no list; removing it still empties the list under the
    connector of A.col1, which stops being active, and [isActiveColumn]
    changes its answer for that column. *)
Theorem removeActiveEdges_absent_pair_changes_answers :
  let s := addActiveEdges [("left__A__col1", "right__C__col3")] initial in
  let s' := removeActiveEdges [("left__A__col1", "right__B__col2")] s in
  map_Forall (λ _ l, ("left__A__col1", "right__B__col2") ∉ l) (index s) ∧
  hasActiveEdgeConnector (index s) "left__A__col1" = true ∧
  hasActiveEdgeConnector (index s') "left__A__col1" = false ∧
  isActiveColumn joinID s "A" "col1" = true ∧
  isActiveColumn joinID s' "A" "col1" = false.
Proof.
  split; [apply (bool_decide_unpack _); by vm_compute|].
  vm_compute. repeat split.
Qed.

(** C7 (absent nodes), as the provider does it: the derivation is a total
    function, and a selected ID that is not a key of [nodesConnections]
    contributes one element at its place: [undefined], or, when the ID
    names a property of [Object.prototype], the value inherited from it;
    any element of the result is such a value or comes from the value of a
    selected ID that is a key. *)
Theorem selectedEdges_absent {A} (nc : gmap string (JsValue A))
    (before after : list string) (id : string) :
  nc !! id = None →
  selectedEdges (before ++ id :: after) nc
  = selectedEdges before nc ++
    (if bool_decide (id ∈ Object_prototype) then JsInherited id
     else JsUndefined) :: selectedEdges after nc ∧
  (∀ sel v, v ∈ selectedEdges sel nc →
     (∃ id', id' ∈ sel ∧ nc !! id' = None ∧
             v = if bool_decide (id' ∈ Object_prototype)
                 then JsInherited id' else JsUndefined) ∨
     (∃ id' w, id' ∈ sel ∧ nc !! id' = Some w ∧ v ∈ flat [w])).
Proof.
  intros Hid. split.
  - rewrite selectedEdges_app, selectedEdges_cons.
    unfold prop. rewrite Hid. simpl. unfold inherited_prop.
    by case_bool_decide.
  - intros sel. induction sel as [|i sel IH]; intros v Hv.
    + by apply not_elem_of_nil in Hv.
    + rewrite selectedEdges_cons in Hv.
      apply elem_of_app in Hv as [Hv|Hv].
      * unfold prop in Hv. destruct (nc !! i) as [w|] eqn:E; simpl in Hv.
        -- right. exists i, w. split; [apply list_elem_of_here|done].
        -- left. exists i. split; [apply list_elem_of_here|].
           split; [done|]. unfold inherited_prop in Hv.
           case_bool_decide; simpl in Hv;
             by apply list_elem_of_singleton in Hv.
      * destruct (IH v Hv) as [(i' & Hi' & E & ->)|(i' & w & Hi' & E & Hw)].
        -- left. exists i'.
           split; [by apply list_elem_of_further|done].
        -- right. exists i', w.
           split; [by apply list_elem_of_further|done].
Qed.

Lemma selectedEdges_absent_witness :
  let nc : gmap string (JsValue string) :=
    {[ "A" := JsNode "a"; "B" := JsNode "b" ]} in
  nc !! "ghost" = None ∧ nc !! "constructor" = None ∧
  selectedEdges (["A"] ++ "ghost" :: ["B"]) nc
  = [JsNode "a"; JsUndefined; JsNode "b"] ∧
  selectedEdges (["A"] ++ "constructor" :: ["B"]) nc
  = [JsNode "a"; JsInherited "constructor"; JsNode "b"].
Proof.
  intros nc. split; [reflexivity|]. split; [reflexivity|].
  destruct (selectedEdges_absent nc ["A"] ["B"] "ghost" eq_refl) as [H1 _].
  destruct (selectedEdges_absent nc ["A"] ["B"] "constructor" eq_refl)
    as [H2 _].
  split; [rewrite H1|rewrite H2]; reflexivity.
Defined.

(** C7 as stated fails: with an empty [nodesConnections], selecting one
    node yields a result of one element, [undefined]. *)
Lemma selectedEdges_absent_contributes_undefined :
  (∅ : gmap string (JsValue string)) !! "ghost" = None ∧
  selectedEdges ["ghost"] (∅ : gmap string (JsValue string)) = [JsUndefined] ∧
  selectedEdges ["ghost"] (∅ : gmap string (JsValue string))
  ≠ selectedEdges [] (∅ : gmap string (JsValue string)).
Proof. split; [reflexivity|]. split; [reflexivity|]. discriminate. Qed.




(** C9 (snapshots), as the provider does it: the new state of a mutator is
    a map object that did not exist before the call; through any map
    object that did, the list under a key that is no connector of the
    batch is unchanged; the object that was the state is updated in place,
    so that it shows after the call what the new state shows; and
    [removeActiveEdges] changes no other map object. *)
Theorem snapshot_frame (es : list Edge) (s : State) (m0 : nat) :
  wf_state s → m0 < length (edgeMaps (store s)) →
  let sa := addActiveEdges es s in
  let sr := removeActiveEdges es s in
  (activeEdges sa ≠ m0 ∧ activeEdges sr ≠ m0) ∧
  (∀ k, existsb (endpoint k) es = false →
        view m0 (store sa) !! k = view m0 (store s) !! k ∧
        view m0 (store sr) !! k = view m0 (store s) !! k) ∧
  (view (activeEdges s) (store sa) = index sa ∧
   view (activeEdges s) (store sr) = index sr) ∧
  (m0 ≠ activeEdges s → view m0 (store sr) = view m0 (store s)).
Proof.
  intros Hwf Hm0 sa sr.
  destruct (addActiveEdges_spec es s Hwf) as (_ & _ & _ & Hra).
  destruct (removeActiveEdges_spec es s Hwf) as (_ & _ & _ & Hrr & _).
  destruct (addActiveEdges_frame es s m0 Hwf Hm0) as (Hfa & Hia).
  destruct (removeActiveEdges_frame es s m0 Hwf Hm0) as (Hfr & Hor & Hir).
  split; [subst sa sr; rewrite Hra, Hrr; lia|].
  split; [intros k Hk; split; [by apply Hfa|by apply Hfr]|].
  split; [done|done].
Qed.

Lemma snapshot_frame_witness :
  let s := addActiveEdges [("a", "b")] initial in
  wf_state s ∧ 0 < length (edgeMaps (store s)) ∧
  existsb (endpoint "a") [("c", "d")] = false ∧
  view 0 (store (addActiveEdges [("c", "d")] s)) !! "a"
  = view 0 (store s) !! "a" ∧
  view 0 (store (removeActiveEdges [("c", "d")] s)) = view 0 (store s).
Proof.
  intros s.
  assert (Hwf : wf_state s) by (apply addActiveEdges_spec; exact wf_initial).
  assert (Hlt : 0 < length (edgeMaps (store s))) by (vm_compute; lia).
  destruct (snapshot_frame [("c", "d")] s 0 Hwf Hlt) as (_ & H2 & _ & H4).
  split; [exact Hwf|]. split; [exact Hlt|]. split; [reflexivity|].
  split; [apply (H2 "a"); reflexivity|].
  apply H4. vm_compute. lia.
Defined.

(** C9 as stated fails: the map object that is the state before
    [addActiveEdges] shows no list under a before the call and one after
    it; the one that is the state before [removeActiveEdges] shows two
    pairs under a before the call and none after it. *)
Lemma snapshot_mutated_in_place :
  let s := initial in
  let s1 := addActiveEdges [("a", "b"); ("a", "c")] s in
  let s2 := removeActiveEdges [("a", "b")] s1 in
  view (activeEdges s) (store s) !! "a" = None ∧
  view (activeEdges s) (store s1) !! "a" = Some [("a", "b"); ("a", "c")] ∧
  view (activeEdges s1) (store s1) !! "a" = Some [("a", "b"); ("a", "c")] ∧
  view (activeEdges s1) (store s2) !! "a" = Some [].
Proof. vm_compute. repeat split. Qed.

(** C10 (removal binds its connectors): after [removeActiveEdges] every
    connector of a pair of the batch is a key of the index, bound to the
    list it had (the empty list if it was not a key) filtered by the batch;
    a connector that was not a key is bound to the empty list, and no key
    of the index is lost. *)
Theorem removeActiveEdges_binds_endpoints (es : list Edge) (s : State)
    (c : string) :
  wf_state s → existsb (endpoint c) es = true →
  let s' := removeActiveEdges es s in
  index s' !! c
    = Some (List.filter (batch_filter c es) (default [] (index s !! c))) ∧
  (index s !! c = None → index s' !! c = Some []) ∧
  (∀ k, is_Some (index s !! k) → is_Some (index s' !! k)).
Proof.
  intros Hwf Hc s'.
  destruct (removeActiveEdges_spec es s Hwf) as (_ & Hi & _).
  subst s'. rewrite Hi. split; [|split].
  - by rewrite foldl_remove_pair_lookup, Hc.
  - intros Hnone. by rewrite foldl_remove_pair_lookup, Hc, Hnone.
  - intros k Hk. rewrite foldl_remove_pair_lookup.
    destruct (existsb (endpoint k) es); [eauto|done].
Qed.

Lemma removeActiveEdges_binds_endpoints_witness :
  wf_state initial ∧
  existsb (endpoint "a") [("a", "b")] = true ∧
  index initial !! "a" = None ∧
  index (removeActiveEdges [("a", "b")] initial) !! "a" = Some [].
Proof.
  split; [exact wf_initial|]. split; [reflexivity|]. split; [reflexivity|].
  destruct (removeActiveEdges_binds_endpoints [("a", "b")] initial "a"
              wf_initial eq_refl) as (_ & H & _).
  apply H. reflexivity.
Defined.

End claims.

(** * Further properties *)

(** ** More on the index as a value *)

Section index_more.
Implicit Types (idx : gmap string (list Edge)) (k : string) (e : Edge)
               (es : list Edge) (s : State) (σ : Store).

Lemma foldl_add_pair_lookup_ne es idx k :
  existsb (endpoint k) es = false → foldl add_pair idx es !! k = idx !! k.
Proof.
  revert idx. induction es as [|e es IH]; intros idx Hk; simpl; [done|].
  simpl in Hk. apply orb_false_iff in Hk as [H1 H2].
  by rewrite IH, add_pair_lookup_ne.
Qed.

Lemma add_pair_is_Some idx e k :
  is_Some (add_pair idx e !! k) ↔ is_Some (idx !! k) ∨ endpoint k e = true.
Proof.
  destruct (endpoint k e) eqn:E.
  - split; [auto|intros _].
    unfold endpoint in E. apply orb_true_iff in E.
    unfold add_pair. destruct (decide (e.1 = e.2)) as [Hlr|Hlr].
    + assert (k = e.1) as ->
        by (destruct E as [E|E]; apply bool_decide_eq_true in E; congruence).
      rewrite lookup_insert_eq. eauto.
    + destruct E as [E|E]; apply bool_decide_eq_true in E; subst k.
      * rewrite lookup_insert_ne, lookup_insert_eq by done. eauto.
      * rewrite lookup_insert_eq. eauto.
  - rewrite add_pair_lookup_ne by done. split; [auto|]. by intros [?|?].
Qed.

Lemma foldl_add_pair_is_Some es idx k :
  is_Some (foldl add_pair idx es !! k) ↔
  is_Some (idx !! k) ∨ existsb (endpoint k) es = true.
Proof.
  revert idx. induction es as [|e es IH]; intros idx; simpl.
  - split; [auto|]. by intros [?|?].
  - rewrite IH, add_pair_is_Some, orb_true_iff. tauto.
Qed.

Lemma existsb_same_pair_false e (l : list Edge) :
  existsb (same_pair e.1 e.2) l = false ↔ e ∉ l.
Proof.
  rewrite <- existsb_same_pair. by destruct (existsb _ _).
Qed.

Lemma lists_NoDup_insert idx k (l : list Edge) :
  lists_NoDup idx → NoDup l → lists_NoDup (<[k := l]> idx).
Proof.
  intros Hn Hl k' l' Hk. rewrite lookup_insert in Hk.
  case_decide; simplify_eq; eauto.
Qed.

Lemma lists_NoDup_default idx k : lists_NoDup idx → NoDup (default [] (idx !! k)).
Proof.
  intros Hn. destruct (idx !! k) as [l|] eqn:E; simpl; [eauto|constructor].
Qed.

Lemma NoDup_snoc_fresh (l : list Edge) e : NoDup l → e ∉ l → NoDup (l ++ [e]).
Proof.
  intros Hl He. apply NoDup_app. split; [done|]. split.
  - intros x Hx Hx'. apply list_elem_of_singleton in Hx' as ->. done.
  - apply NoDup_singleton.
Qed.

Lemma add_pair_lists_NoDup idx e :
  e.1 ≠ e.2 → lists_NoDup idx → lists_NoDup (add_pair idx e).
Proof.
  intros Hne Hn. unfold add_pair. rewrite decide_False by done.
  pose proof (lists_NoDup_default idx e.1 Hn) as N1.
  pose proof (lists_NoDup_default idx e.2 Hn) as N2.
  apply lists_NoDup_insert; [apply lists_NoDup_insert; [done|]|].
  - destruct (existsb _ _) eqn:D; [done|].
    apply NoDup_snoc_fresh; [done|]. by apply existsb_same_pair_false.
  - destruct (existsb _ (default [] (idx !! e.2))) eqn:D; [done|].
    apply NoDup_snoc_fresh; [done|]. by apply existsb_same_pair_false.
Qed.

Lemma NoDup_List_filter {A} (f : A → bool) (l : list A) :
  NoDup l → NoDup (List.filter f l).
Proof.
  induction 1 as [|x l Hx Hl IH]; simpl; [constructor|].
  destruct (f x); [|done]. constructor; [|done].
  intros Hin. apply Hx. apply list_elem_of_In, filter_In in Hin as [Hin _].
  by apply list_elem_of_In.
Qed.

Lemma remove_pair_lists_NoDup idx e :
  lists_NoDup idx → lists_NoDup (remove_pair idx e).
Proof.
  intros Hn. unfold remove_pair.
  apply lists_NoDup_insert; [apply lists_NoDup_insert; [done|]|];
    apply NoDup_List_filter; by apply lists_NoDup_default.
Qed.

Lemma foldl_add_pair_lists_NoDup es idx :
  (∀ e, e ∈ es → e.1 ≠ e.2) → lists_NoDup idx →
  lists_NoDup (foldl add_pair idx es).
Proof.
  revert idx. induction es as [|e es IH]; intros idx Hes Hn; simpl; [done|].
  apply IH; [intros e' He'; apply Hes; by apply list_elem_of_further|].
  apply add_pair_lists_NoDup; [apply Hes; apply list_elem_of_here|done].
Qed.

Lemma foldl_remove_pair_lists_NoDup es idx :
  lists_NoDup idx → lists_NoDup (foldl remove_pair idx es).
Proof.
  revert idx. induction es as [|e es IH]; intros idx Hn; simpl; [done|].
  apply IH. by apply remove_pair_lists_NoDup.
Qed.

Lemma lists_NoDup_run ops s :
  wf_state s → lists_NoDup (index s) →
  (∀ e, e ∈ added ops → e.1 ≠ e.2) →
  lists_NoDup (index (run ops s)).
Proof.
  revert s. induction ops as [|o ops IH]; intros s Hwf Hn Hne; [done|].
  simpl. simpl in Hne. destruct o as [es|es]; simpl.
  - destruct (addActiveEdges_spec es s Hwf) as (Hwf' & Hi & _).
    apply IH; [done| |].
    + rewrite Hi. apply foldl_add_pair_lists_NoDup; [|done].
      intros e He. apply Hne. apply elem_of_app. by left.
    + intros e He. apply Hne. apply elem_of_app. by right.
  - destruct (removeActiveEdges_spec es s Hwf) as (Hwf' & Hi & _).
    apply IH; [done| |done].
    rewrite Hi. by apply foldl_remove_pair_lists_NoDup.
Qed.

Lemma sublist_List_filter {A} (f : A → bool) (l : list A) :
  List.filter f l `sublist_of` l.
Proof.
  induction l as [|x l IH]; simpl; [done|].
  destruct (f x); [by apply sublist_skip|by apply sublist_cons].
Qed.

Lemma List_filter_idem {A} (f : A → bool) (l : list A) :
  List.filter f (List.filter f l) = List.filter f l.
Proof.
  rewrite filter_filter_andb. apply List.filter_ext.
  intros x. by destruct (f x).
Qed.

Lemma List_filter_none {A} (f : A → bool) (l : list A) :
  (∀ x, x ∈ l → f x = false) → List.filter f l = [].
Proof.
  induction l as [|x l IH]; intros Hall; simpl; [done|].
  rewrite (Hall x) by apply list_elem_of_here.
  apply IH. intros y Hy. apply Hall. by apply list_elem_of_further.
Qed.

(** The filter of a batch rejects, under one of its connectors, every pair
    of the batch. *)
Lemma batch_filter_own es e k :
  e ∈ es → endpoint k e = true → batch_filter k es e = false.
Proof.
  intros He Hk. unfold batch_filter.
  destruct (forallb _ es) eqn:F; [|done].
  rewrite forallb_forall in F. apply list_elem_of_In in He.
  specialize (F e He). rewrite Hk in F. simpl in F.
  unfold remove_filter in F. by rewrite bool_decide_eq_true_2 in F.
Qed.

Lemma foldl_remove_pair_idem es idx :
  foldl remove_pair (foldl remove_pair idx es) es = foldl remove_pair idx es.
Proof.
  apply map_eq. intros k. rewrite !foldl_remove_pair_lookup.
  destruct (existsb (endpoint k) es); [|done].
  simpl. by rewrite List_filter_idem.
Qed.

Lemma connMaps_get_or_empty m k σ :
  connMaps (get_or_empty m k σ).2 = connMaps σ.
Proof. unfold get_or_empty. by destruct (bindings m σ !! k). Qed.

Lemma connMaps_addActiveEdges_each m σ e :
  connMaps (addActiveEdges_each m σ e) = connMaps σ.
Proof.
  unfold addActiveEdges_each.
  pose proof (connMaps_get_or_empty m e.1 σ) as H1.
  destruct (get_or_empty m e.1 σ) as [l σ1]. simpl in H1.
  pose proof (connMaps_get_or_empty m e.2 σ1) as H2.
  destruct (get_or_empty m e.2 σ1) as [r σ2]. simpl in H2.
  simpl. destruct (isFalse _), (isFalse _); simpl; congruence.
Qed.

Lemma connMaps_addActiveEdges_foldl m es σ :
  connMaps (foldl (addActiveEdges_each m) σ es) = connMaps σ.
Proof.
  revert σ. induction es as [|e es IH]; intros σ; simpl; [done|].
  by rewrite IH, connMaps_addActiveEdges_each.
Qed.

Lemma tracked_reachable ops : tracked (added ops) (index (run ops initial)).
Proof.
  pose proof (tracked_run ops initial [] wf_initial) as Ht.
  rewrite index_initial in Ht. exact (Ht (tracked_empty _)).
Qed.

(** After the removal of a batch, a pair of the batch is under no key of
    an index whose pairs are stored under their own connectors. *)
Lemma foldl_remove_pair_gone A idx es e k :
  tracked A idx → e ∈ es → e ∉ default [] (foldl remove_pair idx es !! k).
Proof.
  intros Ht He Hin. rewrite foldl_remove_pair_lookup in Hin.
  destruct (existsb (endpoint k) es) eqn:Ek; simpl in Hin.
  - apply list_elem_of_In, filter_In in Hin as [Hin Hf].
    apply list_elem_of_In in Hin.
    destruct (tracked_default _ _ _ _ Ht Hin) as [_ Hend].
    by rewrite (batch_filter_own es e k He Hend) in Hf.
  - destruct (tracked_default _ _ _ _ Ht Hin) as [_ Hend].
    assert (existsb (endpoint k) es = true); [|congruence].
    apply existsb_exists. exists e. split; [by apply list_elem_of_In|done].
Qed.

Lemma foldl_remove_pair_sublist idx es k :
  default [] (foldl remove_pair idx es !! k) `sublist_of` default [] (idx !! k).
Proof.
  rewrite foldl_remove_pair_lookup.
  destruct (existsb (endpoint k) es); [|done].
  simpl. apply sublist_List_filter.
Qed.

End index_more.

(** ** More on the derived views, the page frame and the errors page *)

Section views_more.
Context {A : Type}.
Implicit Types (nc : gmap string (JsValue A)) (sel : list string).

Lemma flat_prop_all_nodes nc id :
  (∀ i w, nc !! i = Some w → ∃ n : A, w = JsNode n) →
  (∀ v, v ∈ flat [prop nc id] → ∃ n : A, v = JsNode n) ↔
  id ∈ connectedNodes nc.
Proof.
  intros Hnodes. unfold connectedNodes, prop.
  rewrite elem_of_dom. destruct (nc !! id) as [w|] eqn:E; simpl.
  - destruct (Hnodes id w E) as (n & ->). simpl.
    split; [eauto|]. intros _ v Hv.
    apply list_elem_of_singleton in Hv as ->. eauto.
  - split; [|intros [? ?]; discriminate].
    intros Hall. exfalso. unfold inherited_prop in Hall.
    case_bool_decide; simpl in Hall;
      (destruct (Hall _ (list_elem_of_here _ _)) as [n Hn]; discriminate Hn).
Qed.

End views_more.

Section set_facts.
Context {A : Type} `{EqDecision A}.
Implicit Types (xs : list A) (x : A).

Lemma Array_from_Set_snoc_raw xs x :
  Array_from_Set (xs ++ [x]) =
  if decide (x ∈ Array_from_Set xs) then Array_from_Set xs
  else Array_from_Set xs ++ [x].
Proof. unfold Array_from_Set. by rewrite foldl_app. Qed.

Lemma elem_of_Array_from_Set xs x : x ∈ Array_from_Set xs ↔ x ∈ xs.
Proof.
  induction xs as [|y xs IH] using rev_ind.
  - done.
  - rewrite Array_from_Set_snoc_raw, elem_of_app, list_elem_of_singleton.
    case_decide as Hy.
    + rewrite IH. split; [auto|]. intros [?|Heq]; [done|]. subst. by apply IH.
    + by rewrite elem_of_app, list_elem_of_singleton, IH.
Qed.

Lemma Array_from_Set_snoc xs x :
  Array_from_Set (xs ++ [x]) =
  if decide (x ∈ xs) then Array_from_Set xs else Array_from_Set xs ++ [x].
Proof.
  rewrite Array_from_Set_snoc_raw.
  pose proof (elem_of_Array_from_Set xs x).
  repeat case_decide; tauto.
Qed.

Lemma NoDup_Array_from_Set xs : NoDup (Array_from_Set xs).
Proof.
  induction xs as [|y xs IH] using rev_ind; [constructor|].
  rewrite Array_from_Set_snoc_raw. case_decide as Hy; [done|].
  apply NoDup_app. split; [done|]. split; [|apply NoDup_singleton].
  intros z Hz Hz'. apply list_elem_of_singleton in Hz' as ->. done.
Qed.

Lemma length_Array_from_Set_le xs : length (Array_from_Set xs) ≤ length xs.
Proof.
  induction xs as [|y xs IH] using rev_ind; [done|].
  rewrite Array_from_Set_snoc, length_app. simpl.
  case_decide; [lia|]. rewrite length_app. simpl. lia.
Qed.

Lemma length_Array_from_Set_eq xs :
  length (Array_from_Set xs) = length xs ↔ NoDup xs.
Proof.
  induction xs as [|y xs IH] using rev_ind; [split; [constructor|done]|].
  rewrite Array_from_Set_snoc, length_app, NoDup_app. simpl.
  pose proof (length_Array_from_Set_le xs) as Hle.
  case_decide as Hy.
  - split; [lia|]. intros (_ & Hd & _). exfalso.
    apply (Hd y Hy). apply list_elem_of_here.
  - rewrite length_app. simpl. split.
    + intros Hl. split; [apply IH; lia|]. split; [|apply NoDup_singleton].
      intros z Hz Hz'. apply list_elem_of_singleton in Hz' as ->. done.
    + intros (Hn & _). apply IH in Hn. lia.
Qed.

End set_facts.

Section errors_facts.
Context {E : Type}.
Context (id_js : E → JsId) (status : E → string).
Implicit Types (errors items : list E).

Lemma find_app_first (f : E → bool) (l1 l2 : list E) (x : E) :
  (∀ y, y ∈ l1 → f y = false) → f x = true →
  List.find f (l1 ++ x :: l2) = Some x.
Proof.
  intros Hl1 Hx. induction l1 as [|y l1 IH]; simpl.
  - by rewrite Hx.
  - rewrite (Hl1 y) by apply list_elem_of_here.
    apply IH. intros z Hz. apply Hl1. by apply list_elem_of_further.
Qed.

Lemma find_none_all (f : E → bool) (l : list E) :
  (∀ y, y ∈ l → f y = false) → List.find f l = None.
Proof.
  induction l as [|y l IH]; intros Hall; simpl; [done|].
  rewrite (Hall y) by apply list_elem_of_here.
  apply IH. intros z Hz. apply Hall. by apply list_elem_of_further.
Qed.

Lemma Object_assign1_lookup_ne (acc : gmap string string) key value i :
  key ≠ i → Object_assign1 acc key value !! i = acc !! i.
Proof.
  intros Hne. unfold Object_assign1. case_bool_decide; [done|].
  by apply lookup_insert_ne.
Qed.

Lemma Object_assign1_proto (acc : gmap string string) key value :
  Object_assign1 acc key value !! "__proto__"%string
  = acc !! "__proto__"%string.
Proof.
  unfold Object_assign1. case_bool_decide; [done|].
  by apply lookup_insert_ne.
Qed.

(** The object [types] builds, read at a key none of the items has. *)
Lemma types_foldl_other (acc : gmap string string) items (i : string) :
  (∀ e, e ∈ items → property_key (id_js e) ≠ i) →
  foldl (λ acc it, Object_assign1 acc (property_key (id_js it)) (status it))
        acc items !! i = acc !! i.
Proof.
  revert acc. induction items as [|e items IH]; intros acc Hall; simpl; [done|].
  rewrite IH by (intros e' He'; apply Hall; by apply list_elem_of_further).
  apply Object_assign1_lookup_ne. apply Hall. apply list_elem_of_here.
Qed.

Lemma types_foldl_proto (acc : gmap string string) items :
  foldl (λ acc it, Object_assign1 acc (property_key (id_js it)) (status it))
        acc items !! "__proto__"%string = acc !! "__proto__"%string.
Proof.
  revert acc. induction items as [|e items IH]; intros acc; simpl; [done|].
  by rewrite IH, Object_assign1_proto.
Qed.

End errors_facts.

(** ** Properties of the mutators *)

Section index_properties.
Local Open Scope string_scope.
Local Open Scope list_scope.

(** X1 (reachable stores): whatever calls of the two mutators are made
    from the initial state, the store stays well-formed: every bound
    reference denotes an array, no array is bound under two different
    keys, and both state cells refer to existing map objects. *)
Theorem reachable_well_formed (ops : list Op) : wf_state (run ops initial).
Proof. apply wf_run, wf_initial. Qed.

(** X2 (provenance): in a state reached from the initial one, a pair
    stored under a key was given to some [addActiveEdges] call and has
    that key as one of its two connectors. *)
Theorem stored_pairs_provenance (ops : list Op) (k : string) (e : Edge) :
  e ∈ default [] (index (run ops initial) !! k) →
  e ∈ added ops ∧ (k = e.1 ∨ k = e.2).
Proof.
  intros He.
  destruct (tracked_default _ _ _ _ (tracked_reachable ops) He) as [HA Hend].
  split; [done|]. unfold endpoint in Hend.
  apply orb_true_iff in Hend as [H|H]; apply bool_decide_eq_true in H; auto.
Qed.

Lemma stored_pairs_provenance_witness :
  ("a", "c") ∈ default []
     (index (run [Add [("a", "b"); ("a", "c")]; Remove [("x", "b")]] initial)
        !! "c") ∧
  ("a", "c") ∈ added [Add [("a", "b"); ("a", "c")]; Remove [("x", "b")]] ∧
  ("c" = ("a", "c").1 ∨ "c" = ("a", "c").2).
Proof.
  assert (H : ("a", "c") ∈ default []
     (index (run [Add [("a", "b"); ("a", "c")]; Remove [("x", "b")]] initial)
        !! "c")) by (apply (bool_decide_unpack _); by vm_compute).
  split; [exact H|].
  exact (stored_pairs_provenance _ _ _ H).
Defined.

(** X3 (insertion only appends): [addActiveEdges] keeps every key of the
    index and every list, in its order, as a prefix of the new list. *)
Theorem addActiveEdges_only_appends (es : list Edge) (s : State)
    (k : string) (l : list Edge) :
  wf_state s → index s !! k = Some l →
  ∃ l', index (addActiveEdges es s) !! k = Some (l ++ l').
Proof.
  intros Hwf Hk. destruct (addActiveEdges_spec es s Hwf) as (_ & Hi & _).
  rewrite Hi. by apply foldl_add_pair_extends.
Qed.

Lemma addActiveEdges_only_appends_witness :
  let s := addActiveEdges [("a", "b")] initial in
  wf_state s ∧ index s !! "a" = Some [("a", "b")] ∧
  ∃ l', index (addActiveEdges [("a", "c"); ("a", "b")] s) !! "a"
        = Some ([("a", "b")] ++ l').
Proof.
  intros s.
  assert (Hwf : wf_state s) by apply (wf_run [Add [("a", "b")]] initial wf_initial).
  split; [exact Hwf|]. split; [reflexivity|].
  apply (addActiveEdges_only_appends _ s "a" [("a", "b")] Hwf). reflexivity.
Defined.

(** X4 (keys after a call): after either mutator the keys of the index are
    the keys it had and the connectors of the pairs of the batch, no
    other. *)
Theorem keys_after_call (es : list Edge) (s : State) (k : string) :
  wf_state s →
  (is_Some (index (addActiveEdges es s) !! k) ↔
     is_Some (index s !! k) ∨ existsb (endpoint k) es = true) ∧
  (is_Some (index (removeActiveEdges es s) !! k) ↔
     is_Some (index s !! k) ∨ existsb (endpoint k) es = true).
Proof.
  intros Hwf.
  destruct (addActiveEdges_spec es s Hwf) as (_ & Hia & _).
  destruct (removeActiveEdges_spec es s Hwf) as (_ & Hir & _).
  rewrite Hia, Hir. split; [apply foldl_add_pair_is_Some|].
  rewrite foldl_remove_pair_lookup.
  destruct (existsb (endpoint k) es); split; eauto.
  by intros [?|?].
Qed.

Lemma keys_after_call_witness :
  wf_state initial ∧
  is_Some (index (addActiveEdges [("a", "b")] initial) !! "b") ∧
  ¬ is_Some (index (removeActiveEdges [("a", "b")] initial) !! "c").
Proof.
  split; [exact wf_initial|]. split.
  - apply (keys_after_call [("a", "b")] initial "b" wf_initial).
    right. reflexivity.
  - intros H.
    apply (keys_after_call [("a", "b")] initial "c" wf_initial) in H.
    destruct H as [[x H]|H]; [|discriminate H].
    rewrite index_initial, lookup_empty in H. discriminate H.
Defined.

(** X5 (batches compose): one call with the batch [es1 ++ es2] shows the
    same index, and for a removal the same cache, as a call with [es1]
    followed by a call with [es2]. *)
Theorem batches_compose (es1 es2 : list Edge) (s : State) :
  wf_state s →
  index (addActiveEdges (es1 ++ es2) s)
  = index (addActiveEdges es2 (addActiveEdges es1 s)) ∧
  index (removeActiveEdges (es1 ++ es2) s)
  = index (removeActiveEdges es2 (removeActiveEdges es1 s)) ∧
  cache (removeActiveEdges (es1 ++ es2) s)
  = cache (removeActiveEdges es2 (removeActiveEdges es1 s)).
Proof.
  intros Hwf.
  destruct (addActiveEdges_spec (es1 ++ es2) s Hwf) as (_ & Ha & _).
  destruct (addActiveEdges_spec es1 s Hwf) as (Hwf1 & Ha1 & _).
  destruct (addActiveEdges_spec es2 _ Hwf1) as (_ & Ha2 & _).
  destruct (removeActiveEdges_spec (es1 ++ es2) s Hwf) as (_ & Hr & Hc & _).
  destruct (removeActiveEdges_spec es1 s Hwf) as (Hwr1 & Hr1 & Hc1 & _).
  destruct (removeActiveEdges_spec es2 _ Hwr1) as (_ & Hr2 & Hc2 & _).
  rewrite Ha, Ha2, Ha1, Hr, Hr2, Hr1, Hc, Hc2, Hc1.
  by rewrite !foldl_app.
Qed.

Lemma batches_compose_witness :
  wf_state initial ∧
  index (addActiveEdges ([("a", "b")] ++ [("a", "c")]) initial)
  = index (addActiveEdges [("a", "c")] (addActiveEdges [("a", "b")] initial)).
Proof.
  split; [exact wf_initial|].
  apply (batches_compose [("a", "b")] [("a", "c")] initial wf_initial).
Defined.

(** X6 (insertion and the cache): [addActiveEdges] does not touch the
    connections: the state cell refers to the same map object and no
    connections map object changes, so the cache reads the same. *)
Theorem addActiveEdges_keeps_connections (es : list Edge) (s : State) :
  connections (addActiveEdges es s) = connections s ∧
  connMaps (store (addActiveEdges es s)) = connMaps (store s) ∧
  cache (addActiveEdges es s) = cache s.
Proof.
  assert (H : connMaps (store (addActiveEdges es s)) = connMaps (store s)).
  { unfold addActiveEdges, addActiveEdges_updater. simpl.
    apply connMaps_addActiveEdges_foldl. }
  split; [done|]. split; [done|].
  unfold cache, connBindings. rewrite H. done.
Qed.

(** X7 (a pair from a connector to itself): when the connector is a key
    of the index and the pair is not in its list, [addActiveEdges] of that
    one pair appends it twice, [left] and [right] being the same array;
    when the connector is not a key, it is bound to a list of one pair. *)
Theorem addActiveEdges_self_loop (l : string) (s : State) :
  wf_state s →
  (∀ old, index s !! l = Some old → (l, l) ∉ old →
     index (addActiveEdges [(l, l)] s) !! l = Some (old ++ [(l, l); (l, l)])) ∧
  (index s !! l = None →
     index (addActiveEdges [(l, l)] s) !! l = Some [(l, l)]).
Proof.
  intros Hwf. destruct (addActiveEdges_spec [(l, l)] s Hwf) as (_ & Hi & _).
  rewrite Hi. simpl. unfold add_pair. simpl.
  rewrite decide_True by done. rewrite lookup_insert_eq. split.
  - intros old Hold Hnot. rewrite Hold. simpl.
    pose proof (proj2 (existsb_same_pair_false (l, l) old) Hnot) as Hd.
    simpl in Hd. by rewrite Hd.
  - intros Hnone. by rewrite Hnone.
Qed.

Lemma addActiveEdges_self_loop_witness :
  let s := addActiveEdges [("a", "b")] initial in
  wf_state s ∧ index s !! "a" = Some [("a", "b")] ∧
  (("a", "a") ∉ [("a", "b")]) ∧
  index (addActiveEdges [("a", "a")] s) !! "a"
  = Some [("a", "b"); ("a", "a"); ("a", "a")].
Proof.
  intros s.
  assert (Hwf : wf_state s) by apply (wf_run [Add [("a", "b")]] initial wf_initial).
  assert (Hnot : ("a", "a") ∉ [("a", "b")])
    by (apply (bool_decide_unpack _); by vm_compute).
  split; [exact Hwf|]. split; [reflexivity|]. split; [exact Hnot|].
  destruct (addActiveEdges_self_loop "a" s Hwf) as [H _].
  exact (H [("a", "b")] eq_refl Hnot).
Defined.

(** X8 (no repetition): as long as no pair from a connector to itself is
    given to [addActiveEdges], no list of a state reached from the initial
    one holds a pair twice. *)
Theorem lists_without_repetition (ops : list Op) (k : string) :
  (∀ e, e ∈ added ops → e.1 ≠ e.2) →
  NoDup (default [] (index (run ops initial) !! k)).
Proof.
  intros Hne. apply lists_NoDup_default.
  apply lists_NoDup_run; [exact wf_initial| |done].
  intros k' l. rewrite index_initial, lookup_empty. discriminate.
Qed.

Lemma lists_without_repetition_witness :
  NoDup (default []
    (index (run [Add [("a", "b"); ("a", "c"); ("a", "b")];
                 Add [("a", "c")]] initial) !! "a")).
Proof.
  apply (lists_without_repetition
           [Add [("a", "b"); ("a", "c"); ("a", "b")]; Add [("a", "c")]] "a").
  intros e He. simpl in He.
  repeat (apply elem_of_cons in He as [->|He]; [discriminate|]).
  by apply not_elem_of_nil in He.
Defined.

(** X9 (removal only removes): after [removeActiveEdges] the list under
    any key is the list it was with some pairs left out, the others in
    their order. *)
Theorem removeActiveEdges_only_removes (es : list Edge) (s : State)
    (k : string) :
  wf_state s →
  default [] (index (removeActiveEdges es s) !! k)
    `sublist_of` default [] (index s !! k).
Proof.
  intros Hwf. destruct (removeActiveEdges_spec es s Hwf) as (_ & Hi & _).
  rewrite Hi. apply foldl_remove_pair_sublist.
Qed.

Lemma removeActiveEdges_only_removes_witness :
  let s := addActiveEdges [("a", "b"); ("c", "b")] initial in
  wf_state s ∧
  default [] (index (removeActiveEdges [("a", "x")] s) !! "b")
    `sublist_of` default [] (index s !! "b").
Proof.
  intros s.
  assert (Hwf : wf_state s)
    by apply (wf_run [Add [("a", "b"); ("c", "b")]] initial wf_initial).
  split; [exact Hwf|].
  apply (removeActiveEdges_only_removes [("a", "x")] s "b" Hwf).
Defined.

(** X10 (removed pairs are gone): in a state reached from the initial
    one, after [removeActiveEdges] no list of the index holds a pair of
    the batch. *)
Theorem removed_pairs_gone (ops : list Op) (es : list Edge) (e : Edge)
    (k : string) :
  e ∈ es →
  e ∉ default [] (index (removeActiveEdges es (run ops initial)) !! k).
Proof.
  intros He.
  destruct (removeActiveEdges_spec es _ (wf_run ops initial wf_initial))
    as (_ & Hi & _).
  rewrite Hi. eapply foldl_remove_pair_gone; [apply tracked_reachable|done].
Qed.

Lemma removed_pairs_gone_witness :
  ("a", "b") ∈ [("a", "b")] ∧
  ("a", "b") ∉ default []
    (index (removeActiveEdges [("a", "b")]
              (run [Add [("a", "b"); ("c", "b")]] initial)) !! "b").
Proof.
  split; [apply list_elem_of_here|].
  apply (removed_pairs_gone [Add [("a", "b"); ("c", "b")]] [("a", "b")]).
  apply list_elem_of_here.
Defined.

(** X11 (removal is idempotent): a second [removeActiveEdges] of the same
    batch changes neither the index nor the cache. *)
Theorem removeActiveEdges_idempotent (es : list Edge) (s : State) :
  wf_state s →
  index (removeActiveEdges es (removeActiveEdges es s))
  = index (removeActiveEdges es s) ∧
  cache (removeActiveEdges es (removeActiveEdges es s))
  = cache (removeActiveEdges es s).
Proof.
  intros Hwf.
  destruct (removeActiveEdges_spec es s Hwf) as (Hwf1 & Hi1 & Hc1 & _).
  destruct (removeActiveEdges_spec es _ Hwf1) as (_ & Hi2 & Hc2 & _).
  rewrite Hi2, Hi1, Hc2, Hc1. split; [apply foldl_remove_pair_idem|].
  apply map_eq. intros k. rewrite !foldl_delete_lookup.
  by destruct (existsb (endpoint k) es).
Qed.

Lemma removeActiveEdges_idempotent_witness :
  let s := addActiveEdges [("a", "b"); ("a", "c"); ("d", "c")] initial in
  wf_state s ∧
  index (removeActiveEdges [("a", "b")] (removeActiveEdges [("a", "b")] s))
  = index (removeActiveEdges [("a", "b")] s).
Proof.
  intros s.
  assert (Hwf : wf_state s)
    by apply (wf_run [Add [("a", "b"); ("a", "c"); ("d", "c")]] initial wf_initial).
  split; [exact Hwf|].
  apply (removeActiveEdges_idempotent [("a", "b")] s Hwf).
Defined.

(** X12 (other keys): the list under a key that is no connector of any
    pair of the batch is the same in the new state, after either
    mutator. *)
Theorem other_keys_untouched (es : list Edge) (s : State) (k : string) :
  wf_state s → existsb (endpoint k) es = false →
  index (addActiveEdges es s) !! k = index s !! k ∧
  index (removeActiveEdges es s) !! k = index s !! k.
Proof.
  intros Hwf Hk.
  destruct (addActiveEdges_spec es s Hwf) as (_ & Hia & _).
  destruct (removeActiveEdges_spec es s Hwf) as (_ & Hir & _).
  rewrite Hia, Hir. split.
  - by apply foldl_add_pair_lookup_ne.
  - by rewrite foldl_remove_pair_lookup, Hk.
Qed.

Lemma other_keys_untouched_witness :
  let s := addActiveEdges [("a", "b"); ("c", "d")] initial in
  wf_state s ∧ existsb (endpoint "c") [("a", "d")] = false ∧
  index (removeActiveEdges [("a", "d")] s) !! "c" = Some [("c", "d")].
Proof.
  intros s.
  assert (Hwf : wf_state s)
    by apply (wf_run [Add [("a", "b"); ("c", "d")]] initial wf_initial).
  split; [exact Hwf|]. split; [reflexivity|].
  destruct (other_keys_untouched [("a", "d")] s "c" Hwf eq_refl) as [_ H].
  rewrite H. reflexivity.
Defined.

(** X13 (empty batch): a call with no pair leaves the index, and for a
    removal the cache, as they read, yet the state is a new map object
    each time. *)
Theorem empty_batch (s : State) :
  wf_state s →
  index (addActiveEdges [] s) = index s ∧
  index (removeActiveEdges [] s) = index s ∧
  cache (removeActiveEdges [] s) = cache s ∧
  activeEdges (addActiveEdges [] s) ≠ activeEdges s ∧
  activeEdges (removeActiveEdges [] s) ≠ activeEdges s ∧
  connections (removeActiveEdges [] s) ≠ connections s.
Proof.
  intros Hwf.
  destruct (addActiveEdges_spec [] s Hwf) as (_ & Hia & _ & Hra).
  destruct (removeActiveEdges_spec [] s Hwf) as (_ & Hir & Hc & Hrr & Hrc).
  destruct Hwf as (_ & Hm & Hcn).
  rewrite Hia, Hir, Hc, Hra, Hrr, Hrc. simpl. repeat split; lia.
Qed.

Lemma empty_batch_witness :
  wf_state initial ∧
  index (addActiveEdges [] initial) = index initial ∧
  activeEdges (addActiveEdges [] initial) ≠ activeEdges initial.
Proof.
  split; [exact wf_initial|].
  destruct (empty_batch initial wf_initial) as (H1 & _ & _ & H4 & _).
  split; [exact H1|exact H4].
Defined.

(** X14 (removing all that was added): in a state reached from the initial
    one, [removeActiveEdges] of a batch that holds every pair ever added
    leaves every list of the index empty, so that no column is active. *)
Theorem removing_all_clears (ops : list Op) (es : list Edge) :
  (∀ e, e ∈ added ops → e ∈ es) →
  let s' := removeActiveEdges es (run ops initial) in
  (∀ k, default [] (index s' !! k) = []) ∧
  (∀ toID modelName columnName,
     isActiveColumn toID s' modelName columnName = false).
Proof.
  intros Hall s'.
  assert (Hempty : ∀ k, default [] (index s' !! k) = []).
  { intros k. destruct (default [] (index s' !! k)) as [|e l] eqn:E; [done|].
    exfalso.
    assert (Hin : e ∈ default [] (index s' !! k))
      by (rewrite E; apply list_elem_of_here).
    destruct (removeActiveEdges_spec es _ (wf_run ops initial wf_initial))
      as (_ & Hi & _).
    subst s'. rewrite Hi in Hin.
    pose proof (elem_of_sublist _ _ _ Hin
                  (foldl_remove_pair_sublist _ es k)) as Hold.
    destruct (tracked_default _ _ _ _ (tracked_reachable ops) Hold) as [HA _].
    exact (foldl_remove_pair_gone _ _ es e k (tracked_reachable ops)
             (Hall e HA) Hin). }
  split; [done|].
  intros toID m c. unfold isActiveColumn. cbn zeta.
  apply orb_false_iff. split; apply hasActiveEdgeConnector_false;
    intros e; rewrite Hempty; apply not_elem_of_nil.
Qed.

Lemma removing_all_clears_witness :
  default []
    (index (removeActiveEdges [("a", "b"); ("a", "c")]
              (run [Add [("a", "b")]; Add [("a", "c"); ("a", "b")]] initial))
       !! "a") = [].
Proof.
  refine (proj1 (removing_all_clears
            [Add [("a", "b")]; Add [("a", "c"); ("a", "b")]]
            [("a", "b"); ("a", "c")] _) "a").
  intros e He. simpl in He.
  repeat (apply elem_of_cons in He as [->|He];
          [apply (bool_decide_unpack _); by vm_compute|]).
  by apply not_elem_of_nil in He.
Defined.

(** X15 (added pairs stay): after [addActiveEdges] every pair of the batch
    is in the list under its left connector and in the list under its
    right connector, and it still is after any further [addActiveEdges]
    call. *)
Theorem added_pairs_stay (es more : list Edge) (s : State) (e : Edge) :
  wf_state s → e ∈ es →
  present (index (addActiveEdges es s)) e ∧
  present (index (addActiveEdges more (addActiveEdges es s))) e.
Proof.
  intros Hwf He.
  destruct (addActiveEdges_spec es s Hwf) as (Hwf1 & Hi1 & _).
  destruct (addActiveEdges_spec more _ Hwf1) as (_ & Hi2 & _).
  assert (Hp : present (index (addActiveEdges es s)) e)
    by (rewrite Hi1; by apply foldl_add_pair_present).
  split; [done|]. rewrite Hi2.
  eapply present_extends; [apply foldl_add_pair_extends|done].
Qed.

Lemma added_pairs_stay_witness :
  wf_state initial ∧ ("a", "b") ∈ [("a", "b"); ("c", "b")] ∧
  present (index (addActiveEdges [("d", "b")]
                    (addActiveEdges [("a", "b"); ("c", "b")] initial)))
          ("a", "b").
Proof.
  split; [exact wf_initial|]. split; [apply list_elem_of_here|].
  apply (added_pairs_stay [("a", "b"); ("c", "b")] [("d", "b")] initial
           ("a", "b") wf_initial).
  apply list_elem_of_here.
Defined.

End index_properties.

(** ** Properties of the views, the page frame and the errors page *)

Section other_properties.
Local Open Scope string_scope.
Local Open Scope list_scope.

(** X16 ([connectedNodes] and [selectedEdges]): when every value of
    [nodesConnections] is a node, as the declared type has it, every
    element of [selectedEdges] is a node exactly when every selected ID is
    in [connectedNodes]; an ID outside it contributes [undefined] or a
    value inherited from [Object.prototype]. *)
Theorem selectedEdges_nodes_iff_connected {A} (sel : list string)
    (nc : gmap string (JsValue A)) :
  (∀ i w, nc !! i = Some w → ∃ n : A, w = JsNode n) →
  (∀ v, v ∈ selectedEdges sel nc → ∃ n : A, v = JsNode n) ↔
  (∀ id, id ∈ sel → id ∈ connectedNodes nc).
Proof.
  intros Hnodes. induction sel as [|i sel IH].
  - split; intros _ x Hx; by apply not_elem_of_nil in Hx.
  - rewrite selectedEdges_cons. split.
    + intros Hall id Hid. apply elem_of_cons in Hid as [->|Hid].
      * apply (flat_prop_all_nodes nc i Hnodes).
        intros v Hv. apply Hall. apply elem_of_app. by left.
      * apply IH; [|done]. intros v Hv. apply Hall. apply elem_of_app.
        by right.
    + intros Hall v Hv. apply elem_of_app in Hv as [Hv|Hv].
      * apply (flat_prop_all_nodes nc i Hnodes); [|done].
        apply Hall. apply list_elem_of_here.
      * apply IH; [|done]. intros id Hid. apply Hall.
        by apply list_elem_of_further.
Qed.

Lemma selectedEdges_nodes_iff_connected_witness :
  let nc : gmap string (JsValue string) :=
    {[ "A" := JsNode "a"; "B" := JsNode "b" ]} in
  (∀ v, v ∈ selectedEdges ["B"; "A"] nc → ∃ n, v = JsNode n) ∧
  ¬ (∀ v, v ∈ selectedEdges ["B"; "constructor"] nc → ∃ n, v = JsNode n).
Proof.
  intros nc.
  assert (Hnodes : ∀ i w, nc !! i = Some w → ∃ n : string, w = JsNode n).
  { intros i w Hi. subst nc. rewrite lookup_insert in Hi.
    case_decide; [simplify_eq; eauto|].
    rewrite lookup_singleton in Hi. case_decide; [simplify_eq; eauto|].
    discriminate Hi. }
  split.
  - apply (selectedEdges_nodes_iff_connected ["B"; "A"] nc Hnodes).
    intros id Hid. unfold connectedNodes. apply elem_of_dom.
    apply elem_of_cons in Hid as [->|Hid]; [by eexists|].
    apply list_elem_of_singleton in Hid as ->. by eexists.
  - intros Hall.
    pose proof (proj1 (selectedEdges_nodes_iff_connected
                         ["B"; "constructor"] nc Hnodes) Hall) as Hc.
    specialize (Hc "constructor"
                  (list_elem_of_further _ _ _ (list_elem_of_here _ _))).
    unfold connectedNodes in Hc. apply elem_of_dom in Hc as [w Hw].
    vm_compute in Hw. discriminate Hw.
Defined.

(** X17 ([modelsCount]): the count is the number of different model
    objects among the values of the map: at most the number of entries,
    equal to it exactly when no two keys hold the same object, and an
    entry appended for an object the map already holds under another key
    does not change it, while one for a new object adds one. *)
Theorem modelsCount_distinct (models : list (string * nat)) :
  (modelsCount models ≤ length models)%nat ∧
  (modelsCount models = length models ↔ NoDup (models.*2)) ∧
  (∀ k v, modelsCount (models ++ [(k, v)]) =
          if decide (v ∈ models.*2) then modelsCount models
          else S (modelsCount models)).
Proof.
  unfold modelsCount. split; [|split].
  - rewrite <- (length_fmap snd models). apply length_Array_from_Set_le.
  - rewrite <- (length_fmap snd models). apply length_Array_from_Set_eq.
  - intros k v. rewrite fmap_app. simpl.
    rewrite Array_from_Set_snoc. case_decide; [done|].
    rewrite length_app. simpl. lia.
Qed.

Lemma modelsCount_distinct_witness :
  modelsCount ([("a", 1); ("b", 2)] ++ [("models/a.sql", 1)]) = 2.
Proof.
  rewrite (proj2 (proj2 (modelsCount_distinct [("a", 1); ("b", 2)]))).
  reflexivity.
Defined.

(** X18 (Plan link and plan controls): [Page] renders the Plan link and
    [EnvironmentDetails] its plan controls under different conditions;
    they disagree exactly when the modules lack 'plans' and hold one of
    'plan-active' and 'plan' without the other. *)
Theorem plan_link_vs_plan_module (modules : list string) :
  showsPlanLink modules ≠ withPlanModule modules ↔
  ("plans" ∉ modules) ∧
  (("plan-active" ∈ modules ∧ ("plan" ∉ modules)) ∨
   (("plan-active" ∉ modules) ∧ "plan" ∈ modules)).
Proof.
  unfold showsPlanLink, withPlanModule.
  repeat case_bool_decide; simpl; split; try tauto; try congruence.
Qed.

Lemma plan_link_vs_plan_module_witness :
  showsPlanLink ["docs"; "plan-active"] ≠ withPlanModule ["docs"; "plan-active"].
Proof.
  apply (plan_link_vs_plan_module ["docs"; "plan-active"]).
  split; [|left; split];
    apply (bool_decide_unpack _); by vm_compute.
Defined.

(** X19 (redirect of the errors page): with no error the page navigates to
    the errors route; once an error is added to the set, it navigates to
    the route of that error, the most recent one, or to the errors route
    if that error has a nil id. *)
Theorem errorsRedirect_latest {E} (id_of : E → option string)
    (route : string) (errors : list E) (e : E) :
  errorsRedirect id_of route (errorList []) = route ∧
  errorsRedirect id_of route (errorList (errors ++ [e]))
  = match id_of e with
    | Some id => route +:+ "/" +:+ id
    | None => route
    end.
Proof.
  split; [done|].
  unfold errorsRedirect, errorList. rewrite reverse_snoc. simpl.
  by destruct (id_of e).
Qed.

(** X20 ([handleDelete]): for an id no error of the set has,
    [removeError] is not called; otherwise it is called once, with the most
    recently added error that has the id. *)
Theorem handleDelete_latest_match {E T} (id_of : E → option string)
    (removeError : E → T → T) (errors : list E) (id : string) (st : T) :
  ((∀ e, e ∈ errors → id_of e ≠ Some id) →
   handleDelete id_of removeError (errorList errors) id st = st) ∧
  (∀ older e newer,
     errors = older ++ e :: newer → id_of e = Some id →
     (∀ e', e' ∈ newer → id_of e' ≠ Some id) →
     handleDelete id_of removeError (errorList errors) id st
     = removeError e st).
Proof.
  unfold handleDelete, errorList. split.
  - intros Hnone. rewrite find_none_all; [done|].
    intros y Hy. rewrite elem_of_reverse in Hy.
    apply bool_decide_eq_false. by apply Hnone.
  - intros older e newer -> He Hnewer.
    rewrite reverse_app, reverse_cons, <- app_assoc. simpl.
    rewrite (find_app_first _ _ _ e); [done| |by apply bool_decide_eq_true].
    intros y Hy. rewrite elem_of_reverse in Hy.
    apply bool_decide_eq_false. by apply Hnewer.
Qed.

Lemma handleDelete_latest_match_witness :
  let id_of (e : string * nat) := Some e.1 in
  let removeError (e : string * nat) (st : list (string * nat)) :=
    List.filter (λ x, negb (bool_decide (x = e))) st in
  let errors := [("e1", 1); ("e2", 2); ("e1", 3)] in
  handleDelete id_of removeError (errorList errors) "e1" errors
  = [("e1", 1); ("e2", 2)] ∧
  handleDelete id_of removeError (errorList errors) "e9" errors = errors.
Proof.
  intros id_of removeError errors. split.
  - destruct (handleDelete_latest_match id_of removeError errors "e1" errors)
      as [_ H].
    rewrite (H [("e1", 1); ("e2", 2)] ("e1", 3) []); [reflexivity..|].
    intros e' He'. by apply not_elem_of_nil in He'.
  - destruct (handleDelete_latest_match id_of removeError errors "e9" errors)
      as [H _].
    apply H. intros e He. subst errors.
    repeat (apply elem_of_cons in He as [->|He]; [discriminate|]).
    by apply not_elem_of_nil in He.
Defined.

(** X21 ([types]): the object built has as own property under a key the
    status of the oldest error with that key, the errors being assigned
    most recent first; a key no error has is absent, and so is
    ["__proto__"] always.  (The key of an error is its id, ["undefined"]
    for an undefined id and ["null"] for a null one.) *)
Theorem types_oldest_status {E} (id_js : E → JsId) (status : E → string)
    (errors : list E) (i : string) :
  ((∀ e, e ∈ errors → property_key (id_js e) ≠ i) →
   types id_js status (errorList errors) !! i = None) ∧
  (∀ older e newer,
     errors = older ++ e :: newer → property_key (id_js e) = i →
     i ≠ "__proto__" →
     (∀ e', e' ∈ older → property_key (id_js e') ≠ i) →
     types id_js status (errorList errors) !! i = Some (status e)) ∧
  types id_js status (errorList errors) !! "__proto__" = None.
Proof.
  unfold types, errorList. split; [|split].
  - intros Hnone. rewrite types_foldl_other; [done|].
    intros e He. rewrite elem_of_reverse in He. by apply Hnone.
  - intros older e newer -> Hi Hproto Holder.
    rewrite reverse_app, reverse_cons, <- app_assoc, !foldl_app. simpl.
    rewrite types_foldl_other.
    + rewrite Hi. unfold Object_assign1.
      rewrite bool_decide_eq_false_2 by done. apply lookup_insert_eq.
    + intros e' He'. rewrite elem_of_reverse in He'. by apply Holder.
  - by rewrite types_foldl_proto.
Qed.

Lemma types_oldest_status_witness :
  let errors : list (JsId * string) :=
    [(IdString "e1", "400"); (IdNull, "500"); (IdString "e1", "404")] in
  types fst snd (errorList errors) !! "e1" = Some "400" ∧
  types fst snd (errorList errors) !! "null" = Some "500" ∧
  types fst snd (errorList errors) !! "undefined" = None.
Proof.
  intros errors. split; [|split].
  - destruct (types_oldest_status fst snd errors "e1") as (_ & H & _).
    apply (H [] (IdString "e1", "400") [(IdNull, "500"); (IdString "e1", "404")]);
      [reflexivity|reflexivity|discriminate|].
    intros e' He'. by apply not_elem_of_nil in He'.
  - destruct (types_oldest_status fst snd errors "null") as (_ & H & _).
    apply (H [(IdString "e1", "400")] (IdNull, "500") [(IdString "e1", "404")]);
      [reflexivity|reflexivity|discriminate|].
    intros e' He'. apply list_elem_of_singleton in He' as ->. discriminate.
  - destruct (types_oldest_status fst snd errors "undefined") as (H & _).
    apply H. intros e He. subst errors.
    repeat (apply elem_of_cons in He as [->|He]; [discriminate|]).
    by apply not_elem_of_nil in He.
Defined.

End other_properties.
